(** * knode: a shallow embedding of the Kronark Node (.knode) decoder

    The development follows [knode.go]: the data types of the package, the
    [parser] cursor with its [error] and [read] methods, the four phase
    parsers and [ParseFromSlice].  Go's [byte] is [Byte.byte]; Go's [int],
    [int16] and [uint32] are [Z], with the wrap-around of every fixed-width
    operation written out; Go's [string] is [String.string]. *)

From Stdlib Require Import ZArith List String Ascii Bool Lia DecimalString.
From Stdlib.Strings Require Import Byte.
Import ListNotations.
Open Scope Z_scope.

(** ** Machine integers *)

Module Int.

(** The numeric value of a [byte]. *)
Definition u8 (b : byte) : Z := Z.of_N (Byte.to_N b).

(** Conversion to [byte] keeps the low eight bits. *)
Definition byte_of_Z (z : Z) : byte :=
  match Byte.of_N (Z.to_N (z mod 256)) with
  | Some b => b
  | None => x00
  end.

(** Conversion to [int16] keeps the low sixteen bits, read as signed. *)
Definition int16 (z : Z) : Z := (z + 32768) mod 65536 - 32768.

(** Operators on [byte] operands: [>>] and [&] cannot leave the byte range,
    [<<] drops the bits shifted out. *)
Definition shr8 (a k : Z) : Z := Z.shiftr a k.
Definition and8 (a m : Z) : Z := Z.land a m.
Definition shl8 (a k : Z) : Z := Z.shiftl a k mod 256.
Definition or8 (a b : Z) : Z := Z.lor a b.

(** Operators on [int16] operands. *)
Definition shl16 (a k : Z) : Z := int16 (Z.shiftl a k).
Definition or16 (a b : Z) : Z := int16 (Z.lor a b).
Definition sub16 (a b : Z) : Z := int16 (a - b).

(** [binary.BigEndian.Uint32] on a four byte window. *)
Definition Uint32 (bs : list byte) : Z :=
  Z.lor (Z.lor (Z.lor (u8 (nth 3 bs x00))
                      (Z.shiftl (u8 (nth 2 bs x00)) 8))
               (Z.shiftl (u8 (nth 1 bs x00)) 16))
        (Z.shiftl (u8 (nth 0 bs x00)) 24).

End Int.
Import Int.

(** ** The fragments of [fmt.Sprintf] the decoder uses *)

Module Fmt.

(** The verb [%d] on an integer. *)
Definition d (z : Z) : string := NilZero.string_of_int (Z.to_int z).

(** The verb [%v] on a [[]byte]: the decimal values between brackets,
    separated by single spaces. *)
Definition v_bytes (bs : list byte) : string :=
  ("[" ++ String.concat " " (map (fun b => d (u8 b)) bs) ++ "]")%string.

(** The verb [%v] on a [bool]. *)
Definition v_bool (b : bool) : string := if b then "true" else "false".

End Fmt.

(** ** Constants and data types *)

Definition MAGIC_NUMBER : string := "kronarknode".
Definition LATEST_VERSION : Z := 1.

Record Position := mkPosition { X : Z; Y : Z }.

(** [type SocketType byte] with its six named values. *)
Definition SocketType := byte.
Definition OutgoingNamed : SocketType := x00.
Definition IncomingNamed : SocketType := x01.
Definition IncomingNumber : SocketType := x02.
Definition IncomingSelect : SocketType := x03.
Definition IncomingSwitch : SocketType := x04.
Definition IncomingText : SocketType := x05.

Record Socket := mkSocket {
  sType : SocketType;
  sValueType : byte;
  PortSlot : byte;
  Repetitive : bool;
  Connected : bool;
  ConnectedSocket : byte;
  ConnectedNode : byte;
  Value : string
}.

Record Instance := mkInstance {
  Key : byte;
  iType : byte;
  Name : string;
  iPosition : Position;
  Sockets : list Socket
}.

Record OutputRootT := mkOutputRoot {
  oPosition : Position;
  Connections : list (byte * byte)
}.

Record Node := mkNode {
  Version : byte;
  InputRootPosition : Position;
  OutputRoot : OutputRootT;
  Nodes : list string;
  Types : list string;
  Instances : list Instance
}.

Record ParseError := mkParseError {
  Context : string;
  Message : string;
  Index : Z
}.

(** Zero values, as [var s Socket], [var i Instance] and [&Node{}] give. *)
Definition zeroPosition : Position := mkPosition 0 0.
Definition zeroSocket : Socket :=
  mkSocket x00 x00 x00 false false x00 x00 EmptyString.
Definition zeroInstance : Instance :=
  mkInstance x00 x00 EmptyString zeroPosition [].
Definition zeroNode : Node :=
  mkNode x00 zeroPosition (mkOutputRoot zeroPosition []) [] [] [].

(** ** The parser state and its monad *)

Record parser := mkParser {
  p_buf : list byte;
  p_i : Z;
  p_ctx : string;
  p_n : Node
}.

Definition set_i (p : parser) (i : Z) : parser :=
  mkParser (p_buf p) i (p_ctx p) (p_n p).
Definition set_ctx (p : parser) (c : string) : parser :=
  mkParser (p_buf p) (p_i p) c (p_n p).
Definition set_n (p : parser) (n : Node) : parser :=
  mkParser (p_buf p) (p_i p) (p_ctx p) n.

(** A method of [*parser] that returns [*ParseError]: it updates the parser
    and yields either the error or the value it stored through its
    destination pointer. *)
Definition M (A : Type) : Type := parser -> parser * (ParseError + A).

Definition ret {A} (a : A) : M A := fun p => (p, inr a).

Definition bind {A B} (m : M A) (k : A -> M B) : M B :=
  fun p =>
    match m p with
    | (p', inl e) => (p', inl e)
    | (p', inr a) => k a p'
    end.

Declare Scope parser_scope.
Delimit Scope parser_scope with parser.
Notation "x <- m ;; k" := (bind m (fun x => k))
  (at level 61, m at next level, right associativity) : parser_scope.
Notation "m ;; k" := (bind m (fun _ => k))
  (at level 61, right associativity) : parser_scope.
Open Scope parser_scope.

(** [p.ctx = c] *)
Definition setCtx (c : string) : M unit := fun p => (set_ctx p c, inr tt).

(** An assignment to a field of [p.n]. *)
Definition modifyNode (f : Node -> Node) : M unit :=
  fun p => (set_n p (f (p_n p)), inr tt).

(** A read of [p.n]. *)
Definition getNode : M Node := fun p => (p, inr (p_n p)).

(** [p.error(msg)], the message already formatted. *)
Definition error (p : parser) (msg : string) : ParseError :=
  mkParseError (p_ctx p) msg (p_i p).

(** [return p.error(msg)] *)
Definition fail {A} (msg : string) : M A := fun p => (p, inl (error p msg)).

(** [p.buf[p.i:]] *)
Definition remaining (p : parser) : list byte :=
  skipn (Z.to_nat (p_i p)) (p_buf p).

(** The text of [errBufferTooSmall] of encoding/binary. *)
Definition errBufferTooSmall : string := "buffer too small".

(** [p.read(v)], for a destination [v] of encoded size [size]:
    [binary.Decode] refuses a buffer shorter than [size] and otherwise
    decodes the window [buf[:size]]; the cursor moves only on success.  The
    result is the window, which each caller decodes by its destination. *)
Definition read (size : Z) : M (list byte) :=
  fun p =>
    let rest := remaining p in
    if Z.of_nat (List.length rest) <? size
    then (p, inl (error p ("internal read error (" ++ errBufferTooSmall
                           ++ ")")%string))
    else (set_i p (p_i p + size), inr (firstn (Z.to_nat size) rest)).

(** [p.read(&b)] for [b] of type [byte]. *)
Definition readByte : M byte :=
  bs <- read 1 ;; ret (nth 0 bs x00).

(** [p.read(&l)] for [l] of type [uint32]. *)
Definition readUint32 : M Z :=
  bs <- read 4 ;; ret (Uint32 bs).

(** [for i := range count], [count] a byte, around a body that may return
    early with an error; [acc] is the local the body updates. *)
Fixpoint forRange {A} (count : nat) (idx : Z) (body : Z -> A -> M A) (acc : A)
  : M A :=
  match count with
  | O => ret acc
  | S k => acc' <- body idx acc ;; forRange k (idx + 1) body acc'
  end.

(** ** Field updates *)

Definition withVersion (v : byte) (n : Node) : Node :=
  mkNode v (InputRootPosition n) (OutputRoot n) (Nodes n) (Types n)
         (Instances n).
Definition withRootPositions (pin pout : Position) (n : Node) : Node :=
  mkNode (Version n) pin (mkOutputRoot pout (Connections (OutputRoot n)))
         (Nodes n) (Types n) (Instances n).
Definition appendConnection (c : byte * byte) (n : Node) : Node :=
  mkNode (Version n) (InputRootPosition n)
         (mkOutputRoot (oPosition (OutputRoot n))
                       (Connections (OutputRoot n) ++ [c]))
         (Nodes n) (Types n) (Instances n).
Definition appendNode (s : string) (n : Node) : Node :=
  mkNode (Version n) (InputRootPosition n) (OutputRoot n) (Nodes n ++ [s])
         (Types n) (Instances n).
Definition appendType (s : string) (n : Node) : Node :=
  mkNode (Version n) (InputRootPosition n) (OutputRoot n) (Nodes n)
         (Types n ++ [s]) (Instances n).
Definition appendInstance (i : Instance) (n : Node) : Node :=
  mkNode (Version n) (InputRootPosition n) (OutputRoot n) (Nodes n) (Types n)
         (Instances n ++ [i]).

Definition withFlags (t : SocketType) (c r : bool) (s : Socket) : Socket :=
  mkSocket t (sValueType s) (PortSlot s) r c (ConnectedSocket s)
           (ConnectedNode s) (Value s).
Definition withValueType (b : byte) (s : Socket) : Socket :=
  mkSocket (sType s) b (PortSlot s) (Repetitive s) (Connected s)
           (ConnectedSocket s) (ConnectedNode s) (Value s).
Definition withPortSlot (b : byte) (s : Socket) : Socket :=
  mkSocket (sType s) (sValueType s) b (Repetitive s) (Connected s)
           (ConnectedSocket s) (ConnectedNode s) (Value s).
Definition withConnectedNode (b : byte) (s : Socket) : Socket :=
  mkSocket (sType s) (sValueType s) (PortSlot s) (Repetitive s) (Connected s)
           (ConnectedSocket s) b (Value s).
Definition withConnectedSocket (b : byte) (s : Socket) : Socket :=
  mkSocket (sType s) (sValueType s) (PortSlot s) (Repetitive s) (Connected s)
           b (ConnectedNode s) (Value s).
Definition withValue (v : string) (s : Socket) : Socket :=
  mkSocket (sType s) (sValueType s) (PortSlot s) (Repetitive s) (Connected s)
           (ConnectedSocket s) (ConnectedNode s) v.
Definition appendSocket (s : Socket) (i : Instance) : Instance :=
  mkInstance (Key i) (iType i) (Name i) (iPosition i) (Sockets i ++ [s]).

(** ** Bit unpacking, expression by expression *)

Module Unpack.

(** [w[k]] on a window the reader filled. *)
Definition at_ (w : list byte) (k : nat) : Z := u8 (nth k w x00).

(** [(int16(w[0])<<2 | int16((w[1]>>(8-2))&0b11)) - 500] *)
Definition field0 (w : list byte) : Z :=
  sub16 (or16 (shl16 (int16 (at_ w 0)) 2)
              (int16 (and8 (shr8 (at_ w 1) (8 - 2)) 3))) 500.

(** [(int16(w[1]&0b111111)<<4 | int16((w[2]>>4)&0b1111)) - 500]; the
    instance parser writes the shift as [8-4]. *)
Definition field1 (w : list byte) : Z :=
  sub16 (or16 (shl16 (int16 (and8 (at_ w 1) 63)) 4)
              (int16 (and8 (shr8 (at_ w 2) 4) 15))) 500.

(** [(int16(pos[2]&0b1111)<<6 | int16((pos[3]>>(8-6))&0b111111)) - 500] *)
Definition field2 (pos : list byte) : Z :=
  sub16 (or16 (shl16 (int16 (and8 (at_ pos 2) 15)) 6)
              (int16 (and8 (shr8 (at_ pos 3) (8 - 6)) 63))) 500.

(** [(int16(pos[3]&0b11)<<8 | int16(pos[4])) - 500] *)
Definition field3 (pos : list byte) : Z :=
  sub16 (or16 (shl16 (int16 (and8 (at_ pos 3) 3)) 8)
              (int16 (at_ pos 4))) 500.

(** [(sizeInfo[2]&0b1111)<<2 | (sizeInfo[3]>>(8-2))&0b11] *)
Definition instNameLen (sizeInfo : list byte) : Z :=
  or8 (shl8 (and8 (at_ sizeInfo 2) 15) 2)
      (and8 (shr8 (at_ sizeInfo 3) (8 - 2)) 3).

(** [sizeInfo[3] & 0b111111] *)
Definition instSockCount (sizeInfo : list byte) : Z :=
  and8 (at_ sizeInfo 3) 63.

(** [SocketType(socketFlags >> 3 & 0b111)] *)
Definition socketType (socketFlags : byte) : SocketType :=
  byte_of_Z (and8 (shr8 (u8 socketFlags) 3) 7).

(** [socketFlags&0b00000010 != 0] *)
Definition connected (socketFlags : byte) : bool :=
  negb (and8 (u8 socketFlags) 2 =? 0).

(** [socketFlags&0b00000100 != 0] *)
Definition repetitive (socketFlags : byte) : bool :=
  negb (and8 (u8 socketFlags) 4 =? 0).

(** [socketFlags&0b00000001 != 0] *)
Definition switchValue (socketFlags : byte) : bool :=
  negb (and8 (u8 socketFlags) 1 =? 0).

End Unpack.

(** ** The phase parsers *)

Definition parseHeader : M unit :=
  setCtx "parsing magic" ;;
  magic <- read 11 ;;
  if negb (string_of_list_byte magic =? MAGIC_NUMBER)%string
  then fail ("invalid magic " ++ Fmt.v_bytes magic)%string
  else
    setCtx "reading version number" ;;
    v <- readByte ;;
    modifyNode (withVersion v) ;;
    if u8 v >? LATEST_VERSION
    then fail ("invalid version number " ++ Fmt.d (u8 v)
               ++ " (higher than latest [" ++ Fmt.d LATEST_VERSION
               ++ "])")%string
    else ret tt.

Definition parseRoots : M unit :=
  setCtx "unpacking root positions" ;;
  pos <- read 5 ;;
  modifyNode (withRootPositions
                (mkPosition (Unpack.field0 pos) (Unpack.field1 pos))
                (mkPosition (Unpack.field2 pos) (Unpack.field3 pos))) ;;
  setCtx "reading amount of connections" ;;
  connCount <- readByte ;;
  forRange (Z.to_nat (u8 connCount)) 0
    (fun i _ =>
       setCtx ("reading outgoing connection [" ++ Fmt.d i ++ "]")%string ;;
       nodeAndSock <- read 2 ;;
       modifyNode (appendConnection
                     (nth 0 nodeAndSock x00, nth 1 nodeAndSock x00)))
    tt.

(** The loop of [parseNodesAndTypes], which the source writes out twice:
    once appending to [p.n.Nodes], once to [p.n.Types]. *)
Definition parseTable (count : byte) (append : string -> Node -> Node)
  : M unit :=
  forRange (Z.to_nat (u8 count)) 0
    (fun _ _ =>
       l <- readByte ;;
       item <- read (u8 l) ;;
       modifyNode (append (string_of_list_byte item)))
    tt.

Definition parseNodesAndTypes : M unit :=
  setCtx "reading amount of nodes" ;;
  nodeCount <- readByte ;;
  parseTable nodeCount appendNode ;;
  setCtx "reading amount of types" ;;
  typeCount <- readByte ;;
  parseTable typeCount appendType.

(** The conditional tail of [parseSocket], its statement
    [if s.Type != OutgoingNamed { ... }]. *)
Definition socketTail (switchValue : bool) (s : Socket) : M Socket :=
  if negb (Byte.eqb (sType s) OutgoingNamed)
  then
    if Connected s
    then
      cn <- readByte ;;
      cs <- readByte ;;
      ret (withConnectedSocket cs (withConnectedNode cn s))
    else if negb (Byte.eqb (sType s) IncomingSwitch)
    then
      valueLen <- readUint32 ;;
      value <- read valueLen ;;
      ret (withValue (string_of_list_byte value) s)
    else ret (withValue (Fmt.v_bool switchValue) s)
  else ret s.

Definition parseSocket (i : Instance) : M Instance :=
  socketFlags <- readByte ;;
  let s := withFlags (Unpack.socketType socketFlags)
                     (Unpack.connected socketFlags)
                     (Unpack.repetitive socketFlags) zeroSocket in
  let switchValue := Unpack.switchValue socketFlags in
  valueType <- readByte ;;
  let s := withValueType valueType s in
  portSlot <- readByte ;;
  let s := withPortSlot portSlot s in
  s <- socketTail switchValue s ;;
  ret (appendSocket s i).

(** The body of the loop of [parseInstances], for the instance of index
    [ii]. *)
Definition parseInstance (ii : Z) : M unit :=
  setCtx ("parsing instance [" ++ Fmt.d ii ++ "]")%string ;;
  key <- readByte ;;
  type <- readByte ;;
  sizeInfo <- read 4 ;;
  let position :=
    mkPosition (Unpack.field0 sizeInfo) (Unpack.field1 sizeInfo) in
  name <- read (Unpack.instNameLen sizeInfo) ;;
  let i := mkInstance key type (string_of_list_byte name) position [] in
  i <- forRange (Z.to_nat (Unpack.instSockCount sizeInfo)) 0
         (fun si i =>
            setCtx ("parsing socket [" ++ Fmt.d si ++ "] in instance ["
                    ++ Fmt.d ii ++ "]")%string ;;
            parseSocket i)
         i ;;
  modifyNode (appendInstance i).

Definition parseInstances : M unit :=
  setCtx "reading amount of instances" ;;
  instanceCount <- readByte ;;
  forRange (Z.to_nat (u8 instanceCount)) 0 (fun ii _ => parseInstance ii) tt.

(** [parse]: a fresh [Node], then the phases in order; the node is returned
    only when all of them succeed. *)
Definition parse : M Node :=
  modifyNode (fun _ => zeroNode) ;;
  parseHeader ;;
  parseRoots ;;
  parseNodesAndTypes ;;
  parseInstances ;;
  getNode.

(** [parser{buf: buf}]; the nil [n] is never read before [parse] replaces
    it. *)
Definition newParser (buf : list byte) : parser :=
  mkParser buf 0 EmptyString zeroNode.

(** [ParseFromSlice]: the pair of results [(n, err)], [None] for nil. *)
Definition ParseFromSlice (buf : list byte)
  : option Node * option ParseError :=
  match parse (newParser buf) with
  | (_, inl e) => (None, Some e)
  | (_, inr n) => (Some n, None)
  end.

(** ** The packed windows as the format describes them *)

Module Layout.

(** The window read as one big-endian number. *)
Definition bigEndian (w : list byte) : Z :=
  fold_left (fun acc b => acc * 256 + u8 b) w 0.

(** The field of [width] bits that starts [off] bits into the window,
    most significant bit first. *)
Definition bits (w : list byte) (off width : Z) : Z :=
  (bigEndian w / 2 ^ (8 * Z.of_nat (List.length w) - off - width))
  mod 2 ^ width.

(** Positions are stored offset by 500. *)
Definition bias : Z := 500.

End Layout.

(** ** Notions the statements use *)

(** The socket as it stands when the conditional tail of [parseSocket]
    starts: flags, value type and port slot stored, the rest still zero. *)
Definition socketHead (f vt ps : byte) : Socket :=
  mkSocket (Unpack.socketType f) vt ps (Unpack.repetitive f)
           (Unpack.connected f) x00 x00 EmptyString.

(** [s'] has the fields of [s] that the first three bytes decide. *)
Definition sameHead (s s' : Socket) : Prop :=
  sType s' = sType s /\ sValueType s' = sValueType s
  /\ PortSlot s' = PortSlot s /\ Repetitive s' = Repetitive s
  /\ Connected s' = Connected s.

(** The minimal document: magic, version 1, a zero root window, and the
    four counts (connections, node table, type table, instances) all zero. *)
Definition minimalDocument : list byte :=
  list_byte_of_string MAGIC_NUMBER
  ++ [x01] ++ [x00; x00; x00; x00; x00] ++ [x00] ++ [x00] ++ [x00] ++ [x00].

(** The cursor lies inside the buffer. *)
Definition inBounds (p : parser) : Prop :=
  0 <= p_i p <= Z.of_nat (List.length (p_buf p)).

(** The three messages a [ParseError] of the decoder can carry. *)
Definition structuralMessage (m : string) : Prop :=
  m = "internal read error (buffer too small)"%string
  \/ (exists magic : list byte,
         m = ("invalid magic " ++ Fmt.v_bytes magic)%string)
  \/ (exists v : Z,
         m = ("invalid version number " ++ Fmt.d v
              ++ " (higher than latest [1])")%string).

(** [e] was made by [p.error] in the state [p]. *)
Definition reports (p : parser) (e : ParseError) : Prop :=
  Context e = p_ctx p /\ Index e = p_i p /\ structuralMessage (Message e).

(** A parser method keeps the buffer, moves the cursor forward only and
    inside the buffer, and the error it returns reports the state it
    stopped in. *)
Definition disciplined {A} (m : M A) : Prop :=
  forall p : parser,
    inBounds p ->
    let p' := fst (m p) in
    p_buf p' = p_buf p /\ p_i p <= p_i p' /\ inBounds p'
    /\ match snd (m p) with
       | inl e => reports p' e
       | inr _ => True
       end.

(** ** The byte layout of the format

    The decoder has no encoding counterpart in the package; the layout below
    follows the format description that accompanies it (header, roots,
    nodes, types, instances) and serves to state what the decoder makes of
    every well laid out buffer. *)

Module Format.

(** A length or count stored in one byte. *)
Definition len8 (k : nat) : byte := byte_of_Z (Z.of_nat k).

(** A [uint32], most significant byte first. *)
Definition be32 (z : Z) : list byte :=
  map byte_of_Z [z / 2 ^ 24; z / 2 ^ 16; z / 2 ^ 8; z].

(** A coordinate as it is stored: offset by 500. *)
Definition raw (c : Z) : Z := c + 500.

(** Four ten bit fields in five bytes. *)
Definition rootWindow (pin pout : Position) : list byte :=
  let v := ((raw (X pin) * 1024 + raw (Y pin)) * 1024 + raw (X pout)) * 1024
           + raw (Y pout) in
  map byte_of_Z [v / 2 ^ 32; v / 2 ^ 24; v / 2 ^ 16; v / 2 ^ 8; v].

(** Two ten bit fields and two six bit fields in four bytes. *)
Definition instanceWindow (pos : Position) (nameLen sockCount : Z)
  : list byte :=
  let v := ((raw (X pos) * 1024 + raw (Y pos)) * 64 + nameLen) * 64
           + sockCount in
  map byte_of_Z [v / 2 ^ 24; v / 2 ^ 16; v / 2 ^ 8; v].

(** An entry of the node or type table: its length, then its bytes. *)
Definition tableItem (s : string) : list byte :=
  len8 (String.length s) :: list_byte_of_string s.

(** A table: its size, then its entries. *)
Definition table (items : list string) : list byte :=
  len8 (List.length items) :: flat_map tableItem items.

(** An output root connection: node, then socket. *)
Definition connection (c : byte * byte) : list byte := [fst c; snd c].

(** The flags byte: two padding bits, three bits of type, then the
    repetitive, connected and switch value bits. *)
Definition flags (s : Socket) : byte :=
  byte_of_Z (u8 (sType s) * 8
             + (if Repetitive s then 4 else 0)
             + (if Connected s then 2 else 0)
             + (if (Value s =? "true")%string then 1 else 0)).

(** What follows the port slot of a socket. *)
Definition socketTailBytes (s : Socket) : list byte :=
  if Byte.eqb (sType s) OutgoingNamed then []
  else if Connected s then [ConnectedNode s; ConnectedSocket s]
  else if Byte.eqb (sType s) IncomingSwitch then []
  else be32 (Z.of_nat (String.length (Value s)))
       ++ list_byte_of_string (Value s).

Definition socket (s : Socket) : list byte :=
  flags s :: sValueType s :: PortSlot s :: socketTailBytes s.

Definition instance (i : Instance) : list byte :=
  Key i :: iType i
  :: instanceWindow (iPosition i) (Z.of_nat (String.length (Name i)))
                    (Z.of_nat (List.length (Sockets i)))
  ++ list_byte_of_string (Name i)
  ++ flat_map socket (Sockets i).

Definition roots (n : Node) : list byte :=
  rootWindow (InputRootPosition n) (oPosition (OutputRoot n))
  ++ len8 (List.length (Connections (OutputRoot n)))
  :: flat_map connection (Connections (OutputRoot n)).

Definition instances (insts : list Instance) : list byte :=
  len8 (List.length insts) :: flat_map instance insts.

Definition document (n : Node) : list byte :=
  list_byte_of_string MAGIC_NUMBER ++ [Version n]
  ++ roots n
  ++ table (Nodes n) ++ table (Types n)
  ++ instances (Instances n).

End Format.

(** ** Documents the format can hold *)

Definition wfCoordinate (c : Z) : Prop := -500 <= c <= 523.

Definition wfPosition (pos : Position) : Prop :=
  wfCoordinate (X pos) /\ wfCoordinate (Y pos).

(** A socket holds what its type and its connected flag let it hold. *)
Definition wfSocket (s : Socket) : Prop :=
  u8 (sType s) <= 7
  /\ if Byte.eqb (sType s) OutgoingNamed
     then ConnectedNode s = x00 /\ ConnectedSocket s = x00
          /\ Value s = EmptyString
     else if Connected s
     then Value s = EmptyString
     else ConnectedNode s = x00 /\ ConnectedSocket s = x00
          /\ if Byte.eqb (sType s) IncomingSwitch
             then Value s = "true"%string \/ Value s = "false"%string
             else Z.of_nat (String.length (Value s)) < 2 ^ 32.

Definition wfInstance (i : Instance) : Prop :=
  (String.length (Name i) <= 63)%nat
  /\ (List.length (Sockets i) <= 63)%nat
  /\ wfPosition (iPosition i)
  /\ Forall wfSocket (Sockets i).

Definition wfTable (items : list string) : Prop :=
  (List.length items <= 255)%nat
  /\ Forall (fun s => (String.length s <= 255)%nat) items.

Definition wfNode (n : Node) : Prop :=
  u8 (Version n) <= LATEST_VERSION
  /\ wfPosition (InputRootPosition n)
  /\ wfPosition (oPosition (OutputRoot n))
  /\ (List.length (Connections (OutputRoot n)) <= 255)%nat
  /\ wfTable (Nodes n) /\ wfTable (Types n)
  /\ (List.length (Instances n) <= 255)%nat
  /\ Forall wfInstance (Instances n).

(** From a state whose node is [n0], [m] succeeds on every buffer that
    continues with [bs]: it yields [a], consumes exactly [bs] and leaves the
    node [n1]. *)
Definition decodesFrom {A} (n0 : Node) (m : M A) (bs : list byte) (a : A)
           (n1 : Node) : Prop :=
  forall (p : parser) (rest : list byte),
    0 <= p_i p -> p_n p = n0 -> remaining p = bs ++ rest ->
    exists p' : parser,
      m p = (p', inr a)
      /\ p_buf p' = p_buf p
      /\ p_i p' = p_i p + Z.of_nat (List.length bs)
      /\ p_n p' = n1.

(** When [m] succeeds from a state whose node satisfies [P], its result and
    the node it leaves satisfy [Q]. *)
Definition ensures {A} (P : Node -> Prop) (m : M A) (Q : A -> Node -> Prop)
  : Prop :=
  forall (p p' : parser) (a : A),
    P (p_n p) -> m p = (p', inr a) -> Q a (p_n p').

(** [q] is [p] with [extra] bytes appended to its buffer. *)
Definition extends (extra : list byte) (p q : parser) : Prop :=
  p_buf q = p_buf p ++ extra /\ p_i q = p_i p /\ p_ctx q = p_ctx p
  /\ p_n q = p_n p.

(** The error of a read that found too few bytes. *)
Definition shortRead (e : ParseError) : Prop :=
  Message e = "internal read error (buffer too small)"%string.

(** Appending bytes to the buffer changes neither a success of [m] nor a
    failure other than a short read. *)
Definition stable {A} (m : M A) : Prop :=
  forall (extra : list byte) (p q : parser),
    inBounds p -> extends extra p q ->
    match m p with
    | (p', inr a) => exists q', m q = (q', inr a) /\ extends extra p' q'
    | (p', inl e) =>
        shortRead e \/ exists q', m q = (q', inl e) /\ extends extra p' q'
    end.

(** Whenever [m] succeeds it has moved the cursor by at least [k]. *)
Definition consumes {A} (k : Z) (m : M A) : Prop :=
  forall (p p' : parser) (a : A), m p = (p', inr a) -> p_i p + k <= p_i p'.

(** A document with every kind of socket tail: an instance named "in" at
    (-20, 300) with an outgoing socket, a connected select socket, a switch
    set to true and a text socket holding "hi". *)
Definition sampleDocument : Node :=
  mkNode x01 (mkPosition (-500) 0)
         (mkOutputRoot (mkPosition 523 (-1)) [(x00, x00); (x00, x01)])
         ["std/math"%string; "util"%string] ["colour"%string]
         [mkInstance x07 xf1 "in" (mkPosition (-20) 300)
            [mkSocket OutgoingNamed xf6 x00 false false x00 x00 EmptyString;
             mkSocket IncomingSelect xf9 x01 true true x02 x05 EmptyString;
             mkSocket IncomingSwitch xf7 x02 false false x00 x00 "true";
             mkSocket IncomingText xf5 x03 false false x00 x00 "hi"];
          mkInstance x08 x00 EmptyString (mkPosition 0 0) []].

(** The body of the loop of [parseRoots]. *)
Definition connectionRound (i : Z) (_ : unit) : M unit :=
  setCtx ("reading outgoing connection [" ++ Fmt.d i ++ "]")%string ;;
  nodeAndSock <- read 2 ;;
  modifyNode (appendConnection
                (nth 0 nodeAndSock x00, nth 1 nodeAndSock x00)).

(** ** The built-in enumerations *)

Module Builtin.

(** [0xff - iota] on line [k] of a constant block, [k] counted from 0. *)
Definition fromTop (k : nat) : Z := 0xff - Z.of_nat k.

Definition PortBuiltin : Z := fromTop 0.
Definition SettingsBuiltin : Z := fromTop 1.
Definition PathBuiltin : Z := fromTop 2.
Definition BytesBuiltin : Z := fromTop 3.
Definition JoinBuiltin : Z := fromTop 4.
Definition OptionBuiltin : Z := fromTop 5.
Definition ConditionBuiltin : Z := fromTop 6.
Definition FormatBuiltin : Z := fromTop 7.
Definition TypeBuiltin : Z := fromTop 8.
Definition ApplyBuiltin : Z := fromTop 9.
Definition SizeBuiltin : Z := fromTop 10.
Definition FileBuiltin : Z := fromTop 11.
Definition ReverseBuiltin : Z := fromTop 12.
Definition ValueBuiltin : Z := fromTop 13.
Definition MathBuiltin : Z := fromTop 14.
Definition RepeatBuiltin : Z := fromTop 15.
Definition TimeBuiltin : Z := fromTop 16.
Definition SplitBuiltin : Z := fromTop 17.
Definition CollectBuiltin : Z := fromTop 18.
Definition builtinNodeStart : Z := fromTop 19.

Definition NoneType : Z := fromTop 0.
Definition AnyType : Z := fromTop 1.
Definition RepetitionType : Z := fromTop 2.
Definition SettingsType : Z := fromTop 3.
Definition OptionThenType : Z := fromTop 4.
Definition OptionWhenType : Z := fromTop 5.
Definition SelectionType : Z := fromTop 6.
Definition BytesType : Z := fromTop 7.
Definition TruthType : Z := fromTop 8.
Definition NumberType : Z := fromTop 9.
Definition TextType : Z := fromTop 10.
Definition RepetitiveSelectionType : Z := fromTop 11.
Definition RepetitiveBytesType : Z := fromTop 12.
Definition RepetitiveTruthType : Z := fromTop 13.
Definition RepetitiveNumberType : Z := fromTop 14.
Definition RepetitiveTextType : Z := fromTop 15.
Definition RepetitivePortDefaultType : Z := fromTop 16.
Definition RepetitivePortValueType : Z := fromTop 17.
Definition PortDefaultType : Z := fromTop 18.
Definition PortChannelType : Z := fromTop 19.
Definition PortValueType : Z := fromTop 20.
Definition PathModuleType : Z := fromTop 21.
Definition PathAbsoluteType : Z := fromTop 22.
Definition RootOutputType : Z := fromTop 23.
Definition RootInputType : Z := fromTop 24.
Definition builtinTypeStart : Z := fromTop 25.

(** A slice literal whose elements are given by index: it is as long as its
    largest index requires and holds the zero value where no index falls. *)
Definition keyedSlice (entries : list (Z * string)) : list string :=
  let len := fold_right (fun e m => Z.max (fst e + 1) m) 0 entries in
  map (fun i =>
         match find (fun e => fst e =? Z.of_nat i) entries with
         | Some e => snd e
         | None => EmptyString
         end)
      (seq 0 (Z.to_nat len)).

Definition BuiltinNodeTypeNames : list string :=
  keyedSlice
    [(PortBuiltin, "builtin:port"); (SettingsBuiltin, "builtin:settings");
     (PathBuiltin, "builtin:path"); (BytesBuiltin, "builtin:bytes");
     (JoinBuiltin, "builtin:join"); (OptionBuiltin, "builtin:option");
     (ConditionBuiltin, "builtin:condition");
     (FormatBuiltin, "builtin:format"); (TypeBuiltin, "builtin:type");
     (ApplyBuiltin, "builtin:apply"); (SizeBuiltin, "builtin:size");
     (FileBuiltin, "builtin:file"); (ReverseBuiltin, "builtin:reverse");
     (ValueBuiltin, "builtin:value"); (MathBuiltin, "builtin:math");
     (RepeatBuiltin, "builtin:repeat"); (TimeBuiltin, "builtin:time");
     (SplitBuiltin, "builtin:split");
     (CollectBuiltin, "builtin:collect")]%string.

Definition BuiltinValueTypeNames : list string :=
  keyedSlice
    [(NoneType, "builtin-type:none"); (AnyType, "builtin-type:any");
     (RepetitionType, "builtin-type:repetition");
     (SettingsType, "builtin-type:settings");
     (OptionThenType, "builtin-type:option then");
     (OptionWhenType, "builtin-type:option when");
     (SelectionType, "builtin-type:selection");
     (BytesType, "builtin-type:bytes"); (TruthType, "builtin-type:truth");
     (NumberType, "builtin-type:number"); (TextType, "builtin-type:text");
     (RepetitiveSelectionType, "builtin-type:repetitive selection");
     (RepetitiveBytesType, "builtin-type:repetitive bytes");
     (RepetitiveTruthType, "builtin-type:repetitive truth");
     (RepetitiveNumberType, "builtin-type:repetitive number");
     (RepetitiveTextType, "builtin-type:repetitive text");
     (RepetitivePortDefaultType, "builtin-type:repetitive port default");
     (RepetitivePortValueType, "builtin-type:repetitive port value");
     (PortDefaultType, "builtin-type:port default");
     (PortChannelType, "builtin-type:port channel");
     (PortValueType, "builtin-type:port value");
     (PathModuleType, "builtin-type:path module");
     (PathAbsoluteType, "builtin-type:path absolute");
     (RootOutputType, "builtin-type:root output");
     (RootInputType, "builtin-type:root input")]%string.

(** [names[b]] for a byte [b]. *)
Definition at_ (names : list string) (b : byte) : string :=
  nth (Z.to_nat (u8 b)) names EmptyString.

End Builtin.

(** ** Decoding from a reader *)



(** Two states that differ at most in the bytes before their cursors. *)
Definition alike (p q : parser) : Prop :=
  remaining p = remaining q /\ p_i p = p_i q /\ p_ctx p = p_ctx q
  /\ p_n p = p_n q /\ 0 <= p_i p.

(** [m] looks at the buffer only from the cursor on. *)
Definition forward {A} (m : M A) : Prop :=
  forall p q : parser,
    alike p q -> snd (m p) = snd (m q) /\ alike (fst (m p)) (fst (m q)).

(** * Properties *)

(** ** Arithmetic on bytes and words *)

Section Arith.

Lemma u8_range (b : byte) : 0 <= u8 b < 256.
Proof.
  unfold u8. pose proof (Byte.to_N_bounded b). lia.
Qed.

Lemma int16_small (z : Z) : -32768 <= z < 32768 -> int16 z = z.
Proof.
  intros Hz. unfold int16. rewrite Z.mod_small; lia.
Qed.

Lemma land_low_zero (a b k : Z) :
  0 <= k -> 0 <= b < 2 ^ k -> Z.land (Z.shiftl a k) b = 0.
Proof.
  intros Hk Hb. apply Z.bits_inj'. intros m Hm.
  rewrite Z.land_spec, Z.bits_0.
  destruct (Z.lt_ge_cases m k) as [Hlt | Hge].
  - rewrite Z.shiftl_spec_low by assumption. reflexivity.
  - rewrite <- (Z.mod_small b (2 ^ k)) by assumption.
    rewrite Z.mod_pow2_bits_high by lia. apply andb_false_r.
Qed.

(** [hi<<k | lo] places [lo] below [hi] when [lo] fits in [k] bits. *)
Lemma lor_shiftl_low (a b k : Z) :
  0 <= k -> 0 <= b < 2 ^ k -> Z.lor (Z.shiftl a k) b = a * 2 ^ k + b.
Proof.
  intros Hk Hb.
  rewrite <- Z.lxor_lor by (apply land_low_zero; assumption).
  rewrite <- Z.add_nocarry_lxor by (apply land_low_zero; assumption).
  rewrite Z.shiftl_mul_pow2 by assumption. reflexivity.
Qed.

Lemma land_mask (a k : Z) : 0 <= k -> Z.land a (2 ^ k - 1) = a mod 2 ^ k.
Proof.
  intros Hk. rewrite <- Z.land_ones by assumption.
  f_equal. rewrite Z.ones_equiv. lia.
Qed.

(** The shape shared by the four position expressions: no step leaves the
    [int16] range. *)
Lemma pack_exact (hi lo k : Z) :
  0 <= k -> 0 <= hi -> 0 <= lo < 2 ^ k -> hi * 2 ^ k + lo < 1024 ->
  sub16 (or16 (shl16 (int16 hi) k) (int16 lo)) 500 = hi * 2 ^ k + lo - 500.
Proof.
  intros Hk Hhi Hlo Hsum.
  assert (Hpow : 1 <= 2 ^ k) by (pose proof (Z.pow_pos_nonneg 2 k); lia).
  assert (Hhik : 0 <= hi * 2 ^ k) by nia.
  assert (Hhi' : hi < 1024) by nia.
  unfold sub16, or16, shl16.
  rewrite (int16_small hi) by lia.
  rewrite (int16_small lo) by lia.
  rewrite (int16_small (Z.shiftl hi k))
    by (rewrite Z.shiftl_mul_pow2 by assumption; lia).
  rewrite lor_shiftl_low by assumption.
  rewrite (int16_small (hi * 2 ^ k + lo)) by lia.
  apply int16_small. lia.
Qed.

End Arith.

(** Puts the byte level expressions of [Unpack] in terms of [/] and [mod]. *)
Ltac unpack_norm :=
  unfold Unpack.field0, Unpack.field1, Unpack.field2, Unpack.field3,
    Unpack.instNameLen, Unpack.instSockCount, Unpack.at_,
    or8, shl8, and8, shr8;
  cbn [nth];
  change 3 with (2 ^ 2 - 1); change 15 with (2 ^ 4 - 1);
  change 63 with (2 ^ 6 - 1);
  rewrite ?land_mask by lia;
  rewrite ?Z.shiftr_div_pow2 by lia;
  change (8 - 2) with 6; change (8 - 6) with 2.

Section Unpacking.

Variables b0 b1 b2 b3 b4 : byte.

Lemma field0_arith (w : list byte) :
  Unpack.field0 (b0 :: b1 :: w) = u8 b0 * 4 + u8 b1 / 64 - 500.
Proof.
  pose proof (u8_range b0). pose proof (u8_range b1).
  unpack_norm.
  rewrite pack_exact; change (2 ^ 2) with 4; change (2 ^ 6) with 64;
    try (Z.div_mod_to_equations; lia).
Qed.

Lemma field1_arith (w : list byte) :
  Unpack.field1 (b0 :: b1 :: b2 :: w)
  = (u8 b1 mod 64) * 16 + u8 b2 / 16 - 500.
Proof.
  pose proof (u8_range b1). pose proof (u8_range b2).
  unpack_norm.
  rewrite pack_exact; change (2 ^ 4) with 16; change (2 ^ 6) with 64;
    try (Z.div_mod_to_equations; lia).
Qed.

Lemma field2_arith (w : list byte) :
  Unpack.field2 (b0 :: b1 :: b2 :: b3 :: w)
  = (u8 b2 mod 16) * 64 + u8 b3 / 4 - 500.
Proof.
  pose proof (u8_range b2). pose proof (u8_range b3).
  unpack_norm.
  rewrite pack_exact; change (2 ^ 4) with 16; change (2 ^ 6) with 64;
    change (2 ^ 2) with 4; try (Z.div_mod_to_equations; lia).
Qed.

Lemma field3_arith (w : list byte) :
  Unpack.field3 (b0 :: b1 :: b2 :: b3 :: b4 :: w)
  = (u8 b3 mod 4) * 256 + u8 b4 - 500.
Proof.
  pose proof (u8_range b3). pose proof (u8_range b4).
  unpack_norm.
  rewrite pack_exact; change (2 ^ 2) with 4; change (2 ^ 8) with 256;
    try (Z.div_mod_to_equations; lia).
Qed.

Lemma instNameLen_arith (w : list byte) :
  Unpack.instNameLen (b0 :: b1 :: b2 :: b3 :: w)
  = (u8 b2 mod 16) * 4 + u8 b3 / 64.
Proof.
  pose proof (u8_range b2). pose proof (u8_range b3).
  unpack_norm.
  rewrite (Z.mod_small (Z.shiftl _ 2) 256)
    by (rewrite Z.shiftl_mul_pow2 by lia; change (2 ^ 2) with 4;
        change (2 ^ 4) with 16; Z.div_mod_to_equations; lia).
  rewrite lor_shiftl_low; change (2 ^ 2) with 4; change (2 ^ 4) with 16;
    change (2 ^ 6) with 64; Z.div_mod_to_equations; lia.
Qed.

Lemma instSockCount_arith (w : list byte) :
  Unpack.instSockCount (b0 :: b1 :: b2 :: b3 :: w) = u8 b3 mod 64.
Proof.
  unpack_norm. reflexivity.
Qed.

(** The same values, as the bit fields of the format description. *)
Lemma bigEndian4 :
  Layout.bigEndian [b0; b1; b2; b3]
  = ((u8 b0 * 256 + u8 b1) * 256 + u8 b2) * 256 + u8 b3.
Proof. reflexivity. Qed.

Lemma bigEndian5 :
  Layout.bigEndian [b0; b1; b2; b3; b4]
  = (((u8 b0 * 256 + u8 b1) * 256 + u8 b2) * 256 + u8 b3) * 256 + u8 b4.
Proof. reflexivity. Qed.

End Unpacking.

(** Reduces a statement on [Layout.bits] of a literal window to linear
    arithmetic with division by constants. *)
Ltac bits_arith :=
  unfold Layout.bits;
  rewrite ?bigEndian4, ?bigEndian5;
  cbn [List.length Z.of_nat Pos.of_succ_nat Pos.succ Z.mul Z.sub Z.add
       Z.opp Z.pos_sub Pos.mul Pos.add Pos.pred_double Z.double Z.succ_double
       Z.pred_double Pos.succ];
  repeat match goal with
         | |- context [u8 ?b] =>
             let x := fresh "x" in
             let H := fresh "H" in
             pose proof (u8_range b) as H;
             set (x := u8 b) in *; clearbody x
         end;
  repeat match goal with
         | |- context [2 ^ Z.pos ?p] =>
             let v := eval vm_compute in (2 ^ Z.pos p) in
             change (2 ^ Z.pos p) with v
         end;
  Z.div_mod_to_equations; lia.

Section Fields.

Variables b0 b1 b2 b3 b4 : byte.

Lemma field0_bits4 :
  Unpack.field0 [b0; b1; b2; b3]
  = Layout.bits [b0; b1; b2; b3] 0 10 - Layout.bias.
Proof. rewrite field0_arith. unfold Layout.bias. bits_arith. Qed.

Lemma field1_bits4 :
  Unpack.field1 [b0; b1; b2; b3]
  = Layout.bits [b0; b1; b2; b3] 10 10 - Layout.bias.
Proof. rewrite field1_arith. unfold Layout.bias. bits_arith. Qed.

Lemma instNameLen_bits4 :
  Unpack.instNameLen [b0; b1; b2; b3] = Layout.bits [b0; b1; b2; b3] 20 6.
Proof. rewrite instNameLen_arith. bits_arith. Qed.

Lemma instSockCount_bits4 :
  Unpack.instSockCount [b0; b1; b2; b3] = Layout.bits [b0; b1; b2; b3] 26 6.
Proof. rewrite instSockCount_arith. bits_arith. Qed.

Lemma field0_bits5 :
  Unpack.field0 [b0; b1; b2; b3; b4]
  = Layout.bits [b0; b1; b2; b3; b4] 0 10 - Layout.bias.
Proof. rewrite field0_arith. unfold Layout.bias. bits_arith. Qed.

Lemma field1_bits5 :
  Unpack.field1 [b0; b1; b2; b3; b4]
  = Layout.bits [b0; b1; b2; b3; b4] 10 10 - Layout.bias.
Proof. rewrite field1_arith. unfold Layout.bias. bits_arith. Qed.

Lemma field2_bits5 :
  Unpack.field2 [b0; b1; b2; b3; b4]
  = Layout.bits [b0; b1; b2; b3; b4] 20 10 - Layout.bias.
Proof. rewrite field2_arith. unfold Layout.bias. bits_arith. Qed.

Lemma field3_bits5 :
  Unpack.field3 [b0; b1; b2; b3; b4]
  = Layout.bits [b0; b1; b2; b3; b4] 30 10 - Layout.bias.
Proof. rewrite field3_arith. unfold Layout.bias. bits_arith. Qed.

(** The formulas of the instance window, with unbounded [<<], [>>], [&]
    and [|]. *)
Lemma instance_formulas :
  let w := [b0; b1; b2; b3] in
  Unpack.field0 w = Z.lor (Z.shiftl (u8 b0) 2) (Z.shiftr (u8 b1) 6) - 500
  /\ Unpack.field1 w
     = Z.lor (Z.shiftl (Z.land (u8 b1) 0x3F) 4) (Z.shiftr (u8 b2) 4) - 500
  /\ Unpack.instNameLen w
     = Z.lor (Z.shiftl (Z.land (u8 b2) 0x0F) 2) (Z.shiftr (u8 b3) 6)
  /\ Unpack.instSockCount w = Z.land (u8 b3) 0x3F.
Proof.
  pose proof (u8_range b0). pose proof (u8_range b1).
  pose proof (u8_range b2). pose proof (u8_range b3).
  cbv zeta.
  rewrite field0_arith, field1_arith, instNameLen_arith,
    instSockCount_arith.
  change 0x3F with (2 ^ 6 - 1). change 0x0F with (2 ^ 4 - 1).
  rewrite !land_mask by lia. rewrite !Z.shiftr_div_pow2 by lia.
  rewrite !lor_shiftl_low;
    change (2 ^ 2) with 4; change (2 ^ 4) with 16; change (2 ^ 6) with 64;
    repeat split; try (Z.div_mod_to_equations; lia).
Qed.

End Fields.

Lemma bits_range (w : list byte) (off width : Z) :
  0 <= width -> 0 <= Layout.bits w off width <= 2 ^ width - 1.
Proof.
  intros Hw. unfold Layout.bits.
  pose proof (Z.pow_pos_nonneg 2 width).
  pose proof (Z.mod_pos_bound
                (Layout.bigEndian w
                 / 2 ^ (8 * Z.of_nat (List.length w) - off - width))
                (2 ^ width)).
  lia.
Qed.

(** ** Running the reader *)

Section Reader.

Lemma bind_ok {A B} (m : M A) (k : A -> M B) (p p' : parser) (a : A) :
  m p = (p', inr a) -> bind m k p = k a p'.
Proof. intros H. unfold bind. rewrite H. reflexivity. Qed.

Lemma bind_err {A B} (m : M A) (k : A -> M B) (p p' : parser)
      (e : ParseError) :
  m p = (p', inl e) -> bind m k p = (p', inl e).
Proof. intros H. unfold bind. rewrite H. reflexivity. Qed.

Lemma set_i_set_i (p : parser) (a b : Z) : set_i (set_i p a) b = set_i p b.
Proof. reflexivity. Qed.

Lemma remaining_length (p : parser) :
  0 <= p_i p <= Z.of_nat (List.length (p_buf p)) ->
  Z.of_nat (List.length (remaining p))
  = Z.of_nat (List.length (p_buf p)) - p_i p.
Proof.
  intros H. unfold remaining. rewrite length_skipn. lia.
Qed.

(** Moving the cursor by [k] drops [k] bytes of what remains. *)
Lemma remaining_set_i (p : parser) (k : Z) :
  0 <= p_i p -> 0 <= k ->
  remaining (set_i p (p_i p + k)) = skipn (Z.to_nat k) (remaining p).
Proof.
  intros Hi Hk. unfold remaining. cbn [p_i p_buf set_i].
  rewrite skipn_skipn. f_equal. lia.
Qed.

(** A read that finds its bytes. *)
Lemma read_ok (p : parser) (bs rest : list byte) :
  0 <= p_i p -> remaining p = bs ++ rest ->
  let size := Z.of_nat (List.length bs) in
  read size p = (set_i p (p_i p + size), inr bs)
  /\ remaining (set_i p (p_i p + size)) = rest.
Proof.
  intros Hi Hrem size. split.
  - unfold read. rewrite Hrem, length_app.
    replace (Z.of_nat (List.length bs + List.length rest) <? size)
      with false by (symmetry; apply Z.ltb_ge; subst size; lia).
    subst size. rewrite Nat2Z.id, firstn_app, Nat.sub_diag, firstn_all.
    cbn [firstn]. rewrite app_nil_r. reflexivity.
  - rewrite remaining_set_i by (subst size; lia).
    subst size. rewrite Hrem, Nat2Z.id, skipn_app, Nat.sub_diag, skipn_all.
    reflexivity.
Qed.

(** A read that does not. *)
Lemma read_short (p : parser) (size : Z) :
  Z.of_nat (List.length (remaining p)) < size ->
  read size p
  = (p, inl (mkParseError (p_ctx p) "internal read error (buffer too small)"
                          (p_i p))).
Proof.
  intros H. unfold read. apply Z.ltb_lt in H. rewrite H. reflexivity.
Qed.

Lemma readByte_ok (p : parser) (b : byte) (rest : list byte) :
  0 <= p_i p -> remaining p = b :: rest ->
  readByte p = (set_i p (p_i p + 1), inr b)
  /\ remaining (set_i p (p_i p + 1)) = rest.
Proof.
  intros Hi Hrem.
  destruct (read_ok p [b] rest Hi Hrem) as [Hr Hrest].
  split; [| exact Hrest].
  unfold readByte. rewrite (bind_ok _ _ _ _ _ Hr). reflexivity.
Qed.

Lemma readByte_short (p : parser) :
  remaining p = [] ->
  readByte p
  = (p, inl (mkParseError (p_ctx p) "internal read error (buffer too small)"
                          (p_i p))).
Proof.
  intros Hrem. unfold readByte.
  apply bind_err. apply read_short. rewrite Hrem. cbn. lia.
Qed.

End Reader.

(** ** Sockets *)

Section Sockets.

Lemma parseSocket_head (p : parser) (i : Instance) (f vt ps : byte)
      (rest : list byte) :
  0 <= p_i p -> remaining p = f :: vt :: ps :: rest ->
  let p3 := set_i p (p_i p + 3) in
  parseSocket i p
  = bind (socketTail (Unpack.switchValue f) (socketHead f vt ps))
         (fun s => ret (appendSocket s i)) p3
  /\ remaining p3 = rest.
Proof.
  intros Hi Hrem p3.
  destruct (readByte_ok p f _ Hi Hrem) as [R1 Hrem1].
  assert (Hi1 : 0 <= p_i (set_i p (p_i p + 1))) by (cbn; lia).
  destruct (readByte_ok _ vt _ Hi1 Hrem1) as [R2 Hrem2].
  cbn [p_i set_i] in R2, Hrem2. rewrite set_i_set_i in R2, Hrem2.
  assert (Hi2 : 0 <= p_i (set_i p (p_i p + 1 + 1))) by (cbn; lia).
  destruct (readByte_ok _ ps _ Hi2 Hrem2) as [R3 Hrem3].
  cbn [p_i set_i] in R3, Hrem3. rewrite set_i_set_i in R3, Hrem3.
  replace (p_i p + 1 + 1 + 1) with (p_i p + 3) in R3, Hrem3 by lia.
  split; [| exact Hrem3].
  unfold parseSocket.
  rewrite (bind_ok _ _ _ _ _ R1). cbv zeta.
  rewrite (bind_ok _ _ _ _ _ R2).
  rewrite (bind_ok _ _ _ _ _ R3).
  reflexivity.
Qed.

(** The flag decoders, bit by bit. *)
Lemma flags_layout (f : byte) :
  Unpack.switchValue f = Z.testbit (u8 f) 0
  /\ Unpack.connected f = Z.testbit (u8 f) 1
  /\ Unpack.repetitive f = Z.testbit (u8 f) 2
  /\ u8 (Unpack.socketType f) = (u8 f / 2 ^ 3) mod 2 ^ 3.
Proof.
  destruct f; vm_compute; repeat split.
Qed.

Lemma kind_values :
  u8 OutgoingNamed = 0 /\ u8 IncomingNamed = 1 /\ u8 IncomingNumber = 2
  /\ u8 IncomingSelect = 3 /\ u8 IncomingSwitch = 4 /\ u8 IncomingText = 5.
Proof. repeat split. Qed.

Lemma tail_outgoing (sv : bool) (s : Socket) (p : parser) :
  sType s = OutgoingNamed -> socketTail sv s p = (p, inr s).
Proof.
  intros Ht. unfold socketTail. rewrite Ht. reflexivity.
Qed.

Lemma tail_switch (sv : bool) (s : Socket) (p : parser) :
  sType s = IncomingSwitch -> Connected s = false ->
  socketTail sv s p = (p, inr (withValue (Fmt.v_bool sv) s)).
Proof.
  intros Ht Hc. unfold socketTail. rewrite Ht, Hc. reflexivity.
Qed.

Lemma tail_connected (sv : bool) (s : Socket) (p : parser) (cn cs : byte)
      (rest : list byte) :
  0 <= p_i p -> remaining p = cn :: cs :: rest ->
  sType s <> OutgoingNamed -> Connected s = true ->
  socketTail sv s p
  = (set_i p (p_i p + 2),
     inr (withConnectedSocket cs (withConnectedNode cn s)))
  /\ remaining (set_i p (p_i p + 2)) = rest.
Proof.
  intros Hi Hrem Ht Hc.
  destruct (readByte_ok p cn _ Hi Hrem) as [R1 Hrem1].
  assert (Hi1 : 0 <= p_i (set_i p (p_i p + 1))) by (cbn; lia).
  destruct (readByte_ok _ cs _ Hi1 Hrem1) as [R2 Hrem2].
  cbn [p_i set_i] in R2, Hrem2. rewrite set_i_set_i in R2, Hrem2.
  replace (p_i p + 1 + 1) with (p_i p + 2) in R2, Hrem2 by lia.
  split; [| exact Hrem2].
  unfold socketTail.
  destruct (Byte.eqb (sType s) OutgoingNamed) eqn:E.
  - apply Byte.byte_dec_bl in E. contradiction.
  - cbn [negb]. rewrite Hc.
    rewrite (bind_ok _ _ _ _ _ R1), (bind_ok _ _ _ _ _ R2). reflexivity.
Qed.

(** The tail never touches what the first three bytes decided. *)
Lemma socketTail_sameHead (sv : bool) (s s' : Socket) (p p' : parser) :
  socketTail sv s p = (p', inr s') -> sameHead s s'.
Proof.
  unfold socketTail, readUint32, bind, ret.
  destruct (negb (Byte.eqb (sType s) OutgoingNamed)).
  - destruct (Connected s) eqn:Hc.
    + destruct (readByte p) as [p1 [e1 | cn]]; [discriminate |].
      destruct (readByte p1) as [p2 [e2 | cs]]; [discriminate |].
      intros H. inversion H; subst. unfold sameHead. cbn. auto.
    + destruct (negb (Byte.eqb (sType s) IncomingSwitch)).
      * destruct (read 4 p) as [p1 [e1 | w]]; [discriminate |].
        destruct (read (Uint32 w) p1) as [p2 [e2 | v]]; [discriminate |].
        intros H. inversion H; subst. unfold sameHead. cbn. auto.
      * intros H. inversion H; subst. unfold sameHead. cbn. auto.
  - intros H. inversion H; subst. unfold sameHead. auto.
Qed.

(** A socket is decoded only from at least three bytes, and is what the
    tail makes of [socketHead]. *)
Lemma parseSocket_inv (p p' : parser) (i i' : Instance) :
  0 <= p_i p -> parseSocket i p = (p', inr i') ->
  exists f vt ps rest s,
    remaining p = f :: vt :: ps :: rest
    /\ socketTail (Unpack.switchValue f) (socketHead f vt ps)
                  (set_i p (p_i p + 3)) = (p', inr s)
    /\ i' = appendSocket s i.
Proof.
  intros Hi H.
  destruct (remaining p) as [| f [| vt [| ps rest]]] eqn:Hrem.
  - unfold parseSocket in H.
    rewrite (bind_err _ _ _ _ _ (readByte_short p Hrem)) in H.
    discriminate.
  - destruct (readByte_ok p f _ Hi Hrem) as [R1 Hrem1].
    unfold parseSocket in H. rewrite (bind_ok _ _ _ _ _ R1) in H.
    cbv zeta in H.
    rewrite (bind_err _ _ _ _ _ (readByte_short _ Hrem1)) in H.
    discriminate.
  - destruct (readByte_ok p f _ Hi Hrem) as [R1 Hrem1].
    assert (Hi1 : 0 <= p_i (set_i p (p_i p + 1))) by (cbn; lia).
    destruct (readByte_ok _ vt _ Hi1 Hrem1) as [R2 Hrem2].
    unfold parseSocket in H. rewrite (bind_ok _ _ _ _ _ R1) in H.
    cbv zeta in H. rewrite (bind_ok _ _ _ _ _ R2) in H.
    rewrite (bind_err _ _ _ _ _ (readByte_short _ Hrem2)) in H.
    discriminate.
  - destruct (parseSocket_head p i f vt ps rest Hi Hrem) as [Hrun _].
    rewrite Hrun in H. unfold bind in H.
    destruct (socketTail _ _ _) as [q [e | s]] eqn:Ht; [discriminate |].
    inversion H; subst.
    exists f, vt, ps, rest, s. auto.
Qed.

End Sockets.

(** C3: the flags byte of every socket is decoded with bit 0 the switch
    value, bit 1 connected, bit 2 repetitive and bits 3 to 5 the kind
    (0 outgoing named, 1 incoming named, 2 incoming number, 3 incoming
    select, 4 incoming switch, 5 incoming text), and every decoded socket
    stores them; when the kind is not outgoing named and the connected bit
    is set, exactly the two bytes after the port slot are read, as the
    connected instance index and then the connected socket index, and no
    inline value is read. *)
Theorem C3_flags_and_connection :
  (forall f : byte,
      Unpack.switchValue f = Z.testbit (u8 f) 0
      /\ Unpack.connected f = Z.testbit (u8 f) 1
      /\ Unpack.repetitive f = Z.testbit (u8 f) 2
      /\ u8 (Unpack.socketType f) = (u8 f / 2 ^ 3) mod 2 ^ 3)
  /\ (u8 OutgoingNamed = 0 /\ u8 IncomingNamed = 1 /\ u8 IncomingNumber = 2
      /\ u8 IncomingSelect = 3 /\ u8 IncomingSwitch = 4
      /\ u8 IncomingText = 5)
  /\ (forall (p p' : parser) (i i' : Instance),
         0 <= p_i p -> parseSocket i p = (p', inr i') ->
         exists f rest s,
           remaining p = f :: rest /\ i' = appendSocket s i
           /\ sType s = Unpack.socketType f
           /\ Connected s = Unpack.connected f
           /\ Repetitive s = Unpack.repetitive f)
  /\ (forall (p : parser) (i : Instance) (f vt ps cn cs : byte)
             (rest : list byte),
         0 <= p_i p -> remaining p = f :: vt :: ps :: cn :: cs :: rest ->
         Unpack.socketType f <> OutgoingNamed ->
         Z.testbit (u8 f) 1 = true ->
         exists s : Socket,
           parseSocket i p = (set_i p (p_i p + 5), inr (appendSocket s i))
           /\ remaining (set_i p (p_i p + 5)) = rest
           /\ sType s = Unpack.socketType f /\ sValueType s = vt
           /\ PortSlot s = ps /\ Repetitive s = Unpack.repetitive f
           /\ Connected s = true
           /\ ConnectedNode s = cn /\ ConnectedSocket s = cs
           /\ Value s = EmptyString).
Proof.
  split; [exact flags_layout |].
  split; [exact kind_values |].
  split.
  - intros p p' i i' Hi H.
    destruct (parseSocket_inv p p' i i' Hi H)
      as (f & vt & ps & rest & s & Hrem & Ht & Hi').
    destruct (socketTail_sameHead _ _ _ _ _ Ht) as (Hty & _ & _ & Hr & Hc).
    exists f, (vt :: ps :: rest), s. cbn in Hty, Hr, Hc. auto.
  - intros p i f vt ps cn cs rest Hi Hrem Hty Hbit.
    destruct (parseSocket_head p i f vt ps _ Hi Hrem) as [Hrun Hrem3].
    assert (Hc : Unpack.connected f = true)
      by (rewrite (proj1 (proj2 (flags_layout f))); exact Hbit).
    assert (Hi3 : 0 <= p_i (set_i p (p_i p + 3))) by (cbn; lia).
    destruct (tail_connected (Unpack.switchValue f) (socketHead f vt ps)
                _ cn cs rest Hi3 Hrem3 Hty Hc) as [Ht Hrem5].
    cbn [p_i set_i] in Ht, Hrem5. rewrite set_i_set_i in Ht, Hrem5.
    replace (p_i p + 3 + 2) with (p_i p + 5) in Ht, Hrem5 by lia.
    exists (withConnectedSocket cs
              (withConnectedNode cn (socketHead f vt ps))).
    split; [rewrite Hrun, (bind_ok _ _ _ _ _ Ht); reflexivity |].
    cbn. repeat split; assumption.
Qed.

(** Scenario E: an incoming select socket, connected, followed by 3 and 1. *)
Lemma C3_scenario_E :
  let p := mkParser [x1a; x07; x09; x03; x01] 0 EmptyString zeroNode in
  exists s : Socket,
    parseSocket zeroInstance p = (set_i p 5, inr (appendSocket s zeroInstance))
    /\ remaining (set_i p 5) = []
    /\ sType s = IncomingSelect /\ sValueType s = x07
    /\ PortSlot s = x09 /\ Repetitive s = false
    /\ Connected s = true
    /\ ConnectedNode s = x03 /\ ConnectedSocket s = x01
    /\ Value s = EmptyString.
Proof.
  exact (proj2 (proj2 (proj2 C3_flags_and_connection))
               (mkParser [x1a; x07; x09; x03; x01] 0 EmptyString zeroNode)
               zeroInstance x1a x07 x09 x03 x01 []
               ltac:(cbn; lia) eq_refl ltac:(discriminate) eq_refl).
Defined.

(** C4: for an incoming switch socket that is not connected, the inline
    value is the text of the switch value bit, "true" when bit 0 is set and
    "false" otherwise, and the conditional tail consumes nothing: the cursor
    stops after the flags, value type and port slot bytes. *)
Theorem C4_switch_value (p : parser) (i : Instance) (f vt ps : byte)
        (rest : list byte) :
  0 <= p_i p -> remaining p = f :: vt :: ps :: rest ->
  Unpack.socketType f = IncomingSwitch -> Z.testbit (u8 f) 1 = false ->
  let p' := set_i p (p_i p + 3) in
  parseSocket i p
  = (p', inr (appendSocket
                (mkSocket IncomingSwitch vt ps (Unpack.repetitive f) false
                          x00 x00
                          (if Z.testbit (u8 f) 0 then "true" else "false"))
                i))
  /\ remaining p' = rest
  /\ socketTail (Unpack.switchValue f) (socketHead f vt ps) p'
     = (p', inr (withValue
                   (if Z.testbit (u8 f) 0 then "true" else "false")
                   (socketHead f vt ps))).
Proof.
  intros Hi Hrem Hty Hbit p'.
  destruct (parseSocket_head p i f vt ps _ Hi Hrem) as [Hrun Hrem3].
  destruct (flags_layout f) as (Hsv & Hc & _ & _).
  rewrite Hbit in Hc.
  assert (Ht : socketTail (Unpack.switchValue f) (socketHead f vt ps) p'
               = (p', inr (withValue (Fmt.v_bool (Unpack.switchValue f))
                                     (socketHead f vt ps))))
    by (apply tail_switch; assumption).
  rewrite Hsv in Ht at 2. unfold Fmt.v_bool in Ht.
  split; [| split; [exact Hrem3 | exact Ht]].
  rewrite Hrun. fold p'. rewrite (bind_ok _ _ _ _ _ Ht).
  unfold ret, withValue, socketHead. cbn. rewrite Hty, Hc. reflexivity.
Qed.

(** Scenario D: an incoming switch socket, not connected, switch value 1. *)
Lemma C4_scenario_D :
  let p := mkParser [x21; x07; x09] 0 EmptyString zeroNode in
  parseSocket zeroInstance p
  = (set_i p 3,
     inr (appendSocket
            (mkSocket IncomingSwitch x07 x09 false false x00 x00 "true")
            zeroInstance)).
Proof.
  exact (proj1 (C4_switch_value
                  (mkParser [x21; x07; x09] 0 EmptyString zeroNode)
                  zeroInstance x21 x07 x09 []
                  ltac:(cbn; lia) eq_refl eq_refl eq_refl)).
Defined.

(** C5: for an outgoing named socket only the flags, value type and port
    slot bytes are read, whatever the connected, switch value and repetitive
    bits are: the cursor stops three bytes on, and the socket has no
    connection reference and no inline value. *)
Theorem C5_outgoing_reads_three (p : parser) (i : Instance) (f vt ps : byte)
        (rest : list byte) :
  0 <= p_i p -> remaining p = f :: vt :: ps :: rest ->
  Unpack.socketType f = OutgoingNamed ->
  let p' := set_i p (p_i p + 3) in
  exists s : Socket,
    parseSocket i p = (p', inr (appendSocket s i))
    /\ remaining p' = rest
    /\ sType s = OutgoingNamed /\ sValueType s = vt /\ PortSlot s = ps
    /\ ConnectedNode s = x00 /\ ConnectedSocket s = x00 /\ Value s = EmptyString.
Proof.
  intros Hi Hrem Hty p'.
  destruct (parseSocket_head p i f vt ps _ Hi Hrem) as [Hrun Hrem3].
  exists (socketHead f vt ps).
  split.
  - rewrite Hrun. fold p'.
    rewrite (bind_ok _ _ _ _ _
               (tail_outgoing (Unpack.switchValue f) (socketHead f vt ps)
                              p' Hty)).
    reflexivity.
  - cbn. repeat split; assumption.
Qed.

(** An outgoing named socket with every other flag bit set, at the very end
    of the buffer. *)
Lemma C5_all_flags_set :
  let p := mkParser [xc7; x07; x09] 0 EmptyString zeroNode in
  exists s : Socket,
    parseSocket zeroInstance p = (set_i p 3, inr (appendSocket s zeroInstance))
    /\ remaining (set_i p 3) = []
    /\ sType s = OutgoingNamed /\ sValueType s = x07 /\ PortSlot s = x09
    /\ ConnectedNode s = x00 /\ ConnectedSocket s = x00 /\ Value s = EmptyString.
Proof.
  exact (C5_outgoing_reads_three
           (mkParser [xc7; x07; x09] 0 EmptyString zeroNode)
           zeroInstance xc7 x07 x09 []
           ltac:(cbn; lia) eq_refl eq_refl).
Defined.

(** C10: a decoded outgoing named socket still has [Connected] and
    [Repetitive] set from bits 1 and 2 of its flags byte, so it can be
    [Connected]; its [ConnectedNode] and [ConnectedSocket] stay 0 and its
    [Value] stays empty, three bytes having been read. *)
Theorem C10_outgoing_keeps_flag_bits :
  (forall (p p' : parser) (i i' : Instance) (f : byte) (rest : list byte),
      0 <= p_i p -> remaining p = f :: rest ->
      Unpack.socketType f = OutgoingNamed ->
      parseSocket i p = (p', inr i') ->
      exists s : Socket,
        i' = appendSocket s i
        /\ sType s = OutgoingNamed
        /\ Connected s = Z.testbit (u8 f) 1
        /\ Repetitive s = Z.testbit (u8 f) 2
        /\ ConnectedNode s = x00 /\ ConnectedSocket s = x00
        /\ Value s = EmptyString
        /\ p_i p' = p_i p + 3)
  /\ (exists (p p' : parser) (s : Socket),
         parseSocket zeroInstance p = (p', inr (appendSocket s zeroInstance))
         /\ sType s = OutgoingNamed /\ Connected s = true).
Proof.
  split.
  - intros p p' i i' f rest Hi Hrem Hty H.
    destruct (parseSocket_inv p p' i i' Hi H)
      as (f' & vt & ps & rest' & s & Hrem' & Ht & Hi').
    rewrite Hrem in Hrem'. inversion Hrem'; subst f' rest.
    rewrite tail_outgoing in Ht by exact Hty.
    inversion Ht; subst p' s.
    destruct (flags_layout f) as (_ & Hc & Hr & _).
    exists (socketHead f vt ps).
    repeat split; assumption.
  - exists (mkParser [x02; x07; x09] 0 EmptyString zeroNode),
           (mkParser [x02; x07; x09] 3 EmptyString zeroNode),
           (mkSocket OutgoingNamed x07 x09 false true x00 x00 EmptyString).
    repeat split.
Qed.

(** An outgoing named socket whose flags byte has bits 1 and 2 set. *)
Lemma C10_connected_outgoing :
  exists s : Socket,
    appendSocket (mkSocket OutgoingNamed x07 x09 true true x00 x00 EmptyString)
                 zeroInstance
    = appendSocket s zeroInstance
    /\ sType s = OutgoingNamed
    /\ Connected s = Z.testbit (u8 x06) 1
    /\ Repetitive s = Z.testbit (u8 x06) 2
    /\ ConnectedNode s = x00 /\ ConnectedSocket s = x00
    /\ Value s = EmptyString
    /\ p_i (mkParser [x06; x07; x09; xff] 3 EmptyString zeroNode) = 0 + 3.
Proof.
  exact (proj1 C10_outgoing_keeps_flag_bits
           (mkParser [x06; x07; x09; xff] 0 EmptyString zeroNode)
           (mkParser [x06; x07; x09; xff] 3 EmptyString zeroNode)
           zeroInstance _ x06 [x07; x09; xff]
           ltac:(cbn; lia) eq_refl eq_refl eq_refl).
Defined.

(** ** The header *)

Section Header.

Lemma magic_length : List.length (list_byte_of_string MAGIC_NUMBER) = 11%nat.
Proof. reflexivity. Qed.

(** A buffer of at least eleven bytes that does not start with the magic:
    the eleven bytes are consumed, then refused. *)
Lemma parseHeader_bad_magic (p : parser) :
  0 <= p_i p -> (11 <= List.length (remaining p))%nat ->
  firstn 11 (remaining p) <> list_byte_of_string MAGIC_NUMBER ->
  parseHeader p
  = (mkParser (p_buf p) (p_i p + 11) "parsing magic" (p_n p),
     inl (mkParseError
            "parsing magic"
            ("invalid magic " ++ Fmt.v_bytes (firstn 11 (remaining p)))
            (p_i p + 11))).
Proof.
  intros Hi Hlen Hneq.
  set (magic := firstn 11 (remaining p)) in *.
  assert (Hm : List.length magic = 11%nat)
    by (subst magic; rewrite length_firstn; lia).
  assert (Hrem : remaining (set_ctx p "parsing magic")
                 = magic ++ skipn 11 (remaining p))
    by (subst magic; rewrite firstn_skipn; reflexivity).
  destruct (read_ok (set_ctx p "parsing magic") magic _ Hi Hrem)
    as [R _].
  rewrite Hm in R. change (Z.of_nat 11) with 11 in R.
  unfold parseHeader.
  rewrite (bind_ok _ _ _ (set_ctx p "parsing magic") tt eq_refl).
  rewrite (bind_ok _ _ _ _ _ R).
  replace (string_of_list_byte magic =? MAGIC_NUMBER)%string with false.
  - reflexivity.
  - symmetry. apply String.eqb_neq. intros Heq. apply Hneq.
    rewrite <- Heq. symmetry. apply list_byte_of_string_of_list_byte.
Qed.

(** After the magic, the version byte decides. *)
Lemma parseHeader_magic (p : parser) (v : byte) (rest : list byte) :
  0 <= p_i p ->
  remaining p = list_byte_of_string MAGIC_NUMBER ++ v :: rest ->
  let p' := mkParser (p_buf p) (p_i p + 12) "reading version number"
                     (withVersion v (p_n p)) in
  parseHeader p
  = (p',
     if u8 v >? LATEST_VERSION
     then inl (mkParseError
                 "reading version number"
                 ("invalid version number " ++ Fmt.d (u8 v)
                  ++ " (higher than latest [" ++ Fmt.d LATEST_VERSION
                  ++ "])")
                 (p_i p + 12))
     else inr tt)
  /\ remaining p' = rest.
Proof.
  intros Hi Hrem p'.
  set (p0 := set_ctx p "parsing magic").
  destruct (read_ok p0 (list_byte_of_string MAGIC_NUMBER) (v :: rest)
                    Hi Hrem) as [R Hrem11].
  rewrite magic_length in R, Hrem11. cbn [p_i p0 set_ctx] in R, Hrem11.
  change (Z.of_nat 11) with 11 in R, Hrem11.
  set (p1 := set_ctx (set_i p0 (p_i p + 11)) "reading version number").
  assert (Hi1 : 0 <= p_i p1) by (cbn; lia).
  destruct (readByte_ok p1 v rest Hi1 Hrem11) as [R1 Hrem12].
  cbn [p_i p1 set_ctx set_i] in R1, Hrem12.
  replace (p_i p + 11 + 1) with (p_i p + 12) in R1, Hrem12 by lia.
  split; [| exact Hrem12].
  unfold parseHeader.
  rewrite (bind_ok _ _ _ p0 tt eq_refl).
  rewrite (bind_ok _ _ _ _ _ R).
  rewrite string_of_list_byte_of_string, String.eqb_refl. cbn [negb].
  rewrite (bind_ok _ _ _ p1 tt eq_refl).
  rewrite (bind_ok _ _ _ _ _ R1).
  unfold bind, modifyNode, fail, ret, error.
  destruct (u8 v >? LATEST_VERSION); reflexivity.
Qed.

End Header.

Lemma remaining_newParser (buf : list byte) (n : Node) :
  remaining (set_n (newParser buf) n) = buf.
Proof. reflexivity. Qed.

Lemma parse_start (buf : list byte) :
  parse (newParser buf)
  = bind parseHeader
         (fun _ => parseRoots ;; parseNodesAndTypes ;; parseInstances ;;
                   getNode)
         (set_n (newParser buf) zeroNode).
Proof. reflexivity. Qed.

(** C1, as the code has it: on every buffer of twelve bytes or more whose
    first eleven bytes are not the magic, decoding fails while "parsing
    magic" with the message "invalid magic" followed by the eleven bytes
    read, and the reported offset is 11, the cursor after those bytes. *)
Theorem C1_invalid_magic (buf : list byte) :
  (12 <= List.length buf)%nat ->
  firstn 11 buf <> list_byte_of_string MAGIC_NUMBER ->
  ParseFromSlice buf
  = (None,
     Some (mkParseError "parsing magic"
                        ("invalid magic " ++ Fmt.v_bytes (firstn 11 buf))
                        11)).
Proof.
  intros Hlen Hneq.
  unfold ParseFromSlice. rewrite parse_start.
  rewrite (bind_err _ _ _ _ _
             (parseHeader_bad_magic (set_n (newParser buf) zeroNode)
                ltac:(cbn; lia)
                ltac:(rewrite remaining_newParser; lia)
                Hneq)).
  reflexivity.
Qed.

(** Twelve zero bytes. *)
Lemma C1_twelve_zero_bytes :
  ParseFromSlice (repeat x00 12)
  = (None,
     Some (mkParseError "parsing magic"
                        "invalid magic [0 0 0 0 0 0 0 0 0 0 0]" 11)).
Proof.
  exact (C1_invalid_magic (repeat x00 12)
           ltac:(cbn; lia) ltac:(discriminate)).
Defined.

(** The offset reported for a wrong magic is not 0: twelve zero bytes
    satisfy the premises of the claim and the error carries offset 11. *)
Lemma C1_offset_is_not_zero :
  (12 <= List.length (repeat x00 12))%nat
  /\ firstn 11 (repeat x00 12) <> list_byte_of_string MAGIC_NUMBER
  /\ ~ (exists e : ParseError,
           snd (ParseFromSlice (repeat x00 12)) = Some e /\ Index e = 0).
Proof.
  split; [cbn; lia |].
  split; [discriminate |].
  intros [e [He Hidx]].
  vm_compute in He. inversion He; subst e. discriminate Hidx.
Qed.

(** C9: after a valid magic one version byte is read; a version above 1
    fails with the "invalid version number" error, of which version 2 is an
    instance; a version of 0 or 1 is accepted, the header parser succeeds
    and decoding goes on with the root positions. *)
Theorem C9_version_check (v : byte) (rest : list byte) :
  let buf := list_byte_of_string MAGIC_NUMBER ++ v :: rest in
  let p12 := mkParser buf 12 "reading version number"
                      (withVersion v zeroNode) in
  (u8 v > LATEST_VERSION ->
   ParseFromSlice buf
   = (None,
      Some (mkParseError "reading version number"
                         ("invalid version number " ++ Fmt.d (u8 v)
                          ++ " (higher than latest [1])")
                         12)))
  /\ (u8 v <= LATEST_VERSION ->
      parseHeader (set_n (newParser buf) zeroNode) = (p12, inr tt)
      /\ remaining p12 = rest
      /\ parse (newParser buf)
         = (parseRoots ;; parseNodesAndTypes ;; parseInstances ;; getNode)
             p12)
  /\ ParseFromSlice (list_byte_of_string MAGIC_NUMBER ++ [x02])
     = (None,
        Some (mkParseError
                "reading version number"
                "invalid version number 2 (higher than latest [1])" 12)).
Proof.
  intros buf p12.
  destruct (parseHeader_magic (set_n (newParser buf) zeroNode) v rest
              ltac:(cbn; lia) eq_refl) as [Hrun Hrem].
  cbn [p_buf p_i p_n set_n newParser Z.add] in Hrun, Hrem.
  fold buf in Hrun, Hrem. fold p12 in Hrun, Hrem.
  split; [| split].
  - intros Hv. apply Z.gt_lt, Z.gtb_lt in Hv. rewrite Hv in Hrun.
    unfold ParseFromSlice. rewrite parse_start.
    rewrite (bind_err _ _ _ _ _ Hrun). reflexivity.
  - intros Hv.
    assert (Hv' : (u8 v >? LATEST_VERSION) = false).
    { destruct (u8 v >? LATEST_VERSION) eqn:E; [| reflexivity].
      apply Z.gtb_lt in E. lia. }
    rewrite Hv' in Hrun.
    split; [exact Hrun | split; [exact Hrem |]].
    rewrite parse_start. rewrite (bind_ok _ _ _ _ _ Hrun). reflexivity.
  - reflexivity.
Qed.

(** Versions 2 and 0. *)
Lemma C9_versions_2_and_0 :
  ParseFromSlice (list_byte_of_string MAGIC_NUMBER ++ [x02; xff])
  = (None,
     Some (mkParseError
             "reading version number"
             "invalid version number 2 (higher than latest [1])" 12))
  /\ parseHeader
       (set_n (newParser (list_byte_of_string MAGIC_NUMBER ++ [x00; xff]))
              zeroNode)
     = (mkParser (list_byte_of_string MAGIC_NUMBER ++ [x00; xff]) 12
                 "reading version number" (withVersion x00 zeroNode),
        inr tt).
Proof.
  split.
  - exact (proj1 (C9_version_check x02 [xff]) eq_refl).
  - exact (proj1 (proj1 (proj2 (C9_version_check x00 [xff]))
                        ltac:(discriminate))).
Defined.

(** C6: decoding the minimal document succeeds with version 1, both root
    positions at (-500, -500), and no connections, node paths, type names
    or instances. *)
Theorem C6_minimal_document :
  ParseFromSlice minimalDocument
  = (Some (mkNode x01 (mkPosition (-500) (-500))
                  (mkOutputRoot (mkPosition (-500) (-500)) [])
                  [] [] []),
     None).
Proof. vm_compute. reflexivity. Qed.

(** ** The cursor discipline *)

Create HintDb cursor.

Section Discipline.

Lemma disciplined_ret {A} (a : A) : disciplined (ret a).
Proof. intros p Hp. cbn. repeat split; try apply Hp; lia. Qed.

Lemma disciplined_bind {A B} (m : M A) (k : A -> M B) :
  disciplined m -> (forall a, disciplined (k a)) -> disciplined (bind m k).
Proof.
  intros Hm Hk p Hp. specialize (Hm p Hp). unfold bind.
  destruct (m p) as [p1 [e | a]]; cbn [fst snd] in *.
  - exact Hm.
  - destruct Hm as (Hbuf & Hle & Hin & _).
    specialize (Hk a p1 Hin). cbv zeta in Hk.
    destruct (k a p1) as [p2 r]; cbn [fst snd] in *.
    destruct Hk as (Hbuf2 & Hle2 & Hin2 & Hr).
    repeat split; try apply Hin2; try exact Hr; [congruence | lia].
Qed.

Lemma disciplined_if {A} (c : bool) (m1 m2 : M A) :
  disciplined m1 -> disciplined m2 -> disciplined (if c then m1 else m2).
Proof. destruct c; auto. Qed.

Lemma disciplined_setCtx (c : string) : disciplined (setCtx c).
Proof. intros p Hp. cbn. repeat split; try apply Hp; lia. Qed.

Lemma disciplined_modifyNode (f : Node -> Node) :
  disciplined (modifyNode f).
Proof. intros p Hp. cbn. repeat split; try apply Hp; lia. Qed.

Lemma disciplined_getNode : disciplined getNode.
Proof. intros p Hp. cbn. repeat split; try apply Hp; lia. Qed.

Lemma disciplined_fail {A} (msg : string) :
  structuralMessage msg -> disciplined (@fail A msg).
Proof.
  intros Hmsg p Hp. cbn. repeat split; try apply Hp; try lia. exact Hmsg.
Qed.

Lemma disciplined_read (size : Z) : 0 <= size -> disciplined (read size).
Proof.
  intros Hsize p Hp. unfold read.
  pose proof (remaining_length p Hp) as Hlen.
  destruct (Z.of_nat (List.length (remaining p)) <? size) eqn:E;
    cbn [fst snd set_i p_buf p_i].
  - repeat split; try apply Hp; try lia. left. reflexivity.
  - apply Z.ltb_ge in E. unfold inBounds in *. cbn [p_i p_buf set_i].
    repeat split; lia.
Qed.

Lemma disciplined_forRange {A} (body : Z -> A -> M A) :
  (forall idx acc, disciplined (body idx acc)) ->
  forall count idx acc, disciplined (forRange count idx body acc).
Proof.
  intros Hbody count.
  induction count as [| k IH]; intros idx acc; cbn [forRange].
  - apply disciplined_ret.
  - apply disciplined_bind; [apply Hbody | intros a; apply IH].
Qed.

Lemma Uint32_nonneg (bs : list byte) : 0 <= Uint32 bs.
Proof.
  unfold Uint32.
  repeat (apply Z.lor_nonneg; split);
    try apply Z.shiftl_nonneg; apply u8_range.
Qed.

Lemma instNameLen_nonneg (w : list byte) : 0 <= Unpack.instNameLen w.
Proof.
  unfold Unpack.instNameLen, or8, shl8, and8, shr8.
  apply Z.lor_nonneg. split.
  - apply Z.mod_pos_bound. lia.
  - apply Z.land_nonneg. right. lia.
Qed.

Lemma structural_magic (magic : list byte) :
  structuralMessage ("invalid magic " ++ Fmt.v_bytes magic).
Proof. right. left. exists magic. reflexivity. Qed.

Lemma structural_version (v : Z) :
  structuralMessage
    ("invalid version number " ++ Fmt.d v ++ " (higher than latest ["
     ++ Fmt.d LATEST_VERSION ++ "])").
Proof. right. right. exists v. reflexivity. Qed.

End Discipline.

#[export] Hint Resolve disciplined_ret disciplined_bind disciplined_if
  disciplined_setCtx disciplined_modifyNode disciplined_getNode
  disciplined_fail disciplined_read disciplined_forRange
  Uint32_nonneg instNameLen_nonneg structural_magic structural_version
  : cursor.
#[export] Hint Extern 1 (0 <= u8 _) => apply u8_range : cursor.
#[export] Hint Extern 1 (0 <= Z.pos _) => apply Pos2Z.is_nonneg : cursor.

Section Phases.

Lemma disciplined_readByte : disciplined readByte.
Proof. unfold readByte. auto with cursor. Qed.

Lemma disciplined_readUint32 : disciplined readUint32.
Proof. unfold readUint32. auto with cursor. Qed.

(** What follows a [uint32] read may rely on the value being a length. *)
Lemma disciplined_readUint32_then {B} (k : Z -> M B) :
  (forall v, 0 <= v -> disciplined (k v)) ->
  disciplined (bind readUint32 k).
Proof.
  intros Hk p Hp.
  assert (Heq : bind readUint32 k p
                = bind (read 4) (fun bs => k (Uint32 bs)) p).
  { unfold readUint32, bind, ret. destruct (read 4 p) as [q [e | bs]];
      reflexivity. }
  rewrite Heq. clear Heq.
  assert (Hd : disciplined (bind (read 4) (fun bs => k (Uint32 bs))))
    by auto with cursor.
  exact (Hd p Hp).
Qed.

Hint Resolve disciplined_readByte disciplined_readUint32
  disciplined_readUint32_then : cursor.

Lemma disciplined_parseHeader : disciplined parseHeader.
Proof. unfold parseHeader. auto 12 with cursor. Qed.

Lemma disciplined_parseRoots : disciplined parseRoots.
Proof. unfold parseRoots. auto 12 with cursor. Qed.

Lemma disciplined_parseTable (count : byte) (f : string -> Node -> Node) :
  disciplined (parseTable count f).
Proof. unfold parseTable. auto 12 with cursor. Qed.

Hint Resolve disciplined_parseTable : cursor.

Lemma disciplined_parseNodesAndTypes : disciplined parseNodesAndTypes.
Proof. unfold parseNodesAndTypes. auto 12 with cursor. Qed.

Lemma disciplined_socketTail (sv : bool) (s : Socket) :
  disciplined (socketTail sv s).
Proof. unfold socketTail. auto 12 with cursor. Qed.

Hint Resolve disciplined_socketTail : cursor.

Lemma disciplined_parseSocket (i : Instance) : disciplined (parseSocket i).
Proof. unfold parseSocket. auto 12 with cursor. Qed.

Hint Resolve disciplined_parseSocket : cursor.

Lemma disciplined_parseInstance (ii : Z) : disciplined (parseInstance ii).
Proof. unfold parseInstance. auto 12 with cursor. Qed.

Hint Resolve disciplined_parseInstance : cursor.

Lemma disciplined_parseInstances : disciplined parseInstances.
Proof. unfold parseInstances. auto 12 with cursor. Qed.

Hint Resolve disciplined_parseHeader disciplined_parseRoots
  disciplined_parseNodesAndTypes disciplined_parseInstances : cursor.

Lemma disciplined_parse : disciplined parse.
Proof. unfold parse. auto 12 with cursor. Qed.

End Phases.

(** ** The decode as a whole *)



(** C8: the cursor only moves forward and never leaves the buffer.  A read
    of [size] bytes with at least that many left returns exactly the next
    [size] bytes and moves the cursor by [size]; with fewer left it returns
    the "buffer too small" error carrying the cursor, which does not move.
    Every phase, and the decode as a whole, keeps that discipline from any
    state whose cursor is inside the buffer. *)
Theorem C8_cursor_discipline :
  (forall (p : parser) (size : Z),
      inBounds p -> 0 <= size ->
      let left := Z.of_nat (List.length (p_buf p)) - p_i p in
      (size <= left ->
       read size p
       = (set_i p (p_i p + size),
          inr (firstn (Z.to_nat size) (skipn (Z.to_nat (p_i p)) (p_buf p))))
       /\ Z.of_nat (List.length
                      (firstn (Z.to_nat size)
                              (skipn (Z.to_nat (p_i p)) (p_buf p)))) = size
       /\ inBounds (set_i p (p_i p + size)))
      /\ (left < size ->
          read size p
          = (p, inl (mkParseError (p_ctx p)
                                  "internal read error (buffer too small)"
                                  (p_i p)))))
  /\ (disciplined parseHeader /\ disciplined parseRoots
      /\ disciplined parseNodesAndTypes
      /\ (forall i, disciplined (parseSocket i))
      /\ disciplined parseInstances /\ disciplined parse)
  /\ (forall buf : list byte,
         let p' := fst (parse (newParser buf)) in
         p_buf p' = buf /\ 0 <= p_i p' <= Z.of_nat (List.length buf)
         /\ match snd (ParseFromSlice buf) with
            | Some e => Index e = p_i p'
            | None => True
            end).
Proof.
  split; [| split].
  - intros p size Hp Hsize left.
    pose proof (remaining_length p Hp) as Hlen. fold left in Hlen.
    split.
    + intros Hle. unfold read.
      replace (Z.of_nat (List.length (remaining p)) <? size) with false
        by (symmetry; apply Z.ltb_ge; lia).
      split; [reflexivity |].
      split.
      * fold (remaining p). rewrite length_firstn. lia.
      * unfold inBounds in *. cbn [p_i p_buf set_i]. lia.
    + intros Hlt. apply read_short. lia.
  - exact (conj disciplined_parseHeader
             (conj disciplined_parseRoots
                (conj disciplined_parseNodesAndTypes
                   (conj disciplined_parseSocket
                      (conj disciplined_parseInstances
                            disciplined_parse))))).
  - intros buf p'.
    assert (Hin : inBounds (newParser buf))
      by (unfold inBounds; cbn; lia).
    pose proof (disciplined_parse (newParser buf) Hin) as Hd.
    cbv zeta in Hd. fold p' in Hd. unfold ParseFromSlice.
    destruct Hd as (Hbuf & _ & Hb & Hr).
    unfold inBounds in Hb. rewrite Hbuf in Hb. cbn [p_buf newParser] in *.
    split; [exact Hbuf | split; [exact Hb |]].
    subst p'. destruct (parse (newParser buf)) as [q [e | n]];
      cbn [fst snd] in *; [apply Hr | exact I].
Qed.

(** A read of four bytes with two left, a read of two, and the header
    parser from the start of the minimal document. *)
Lemma C8_short_and_exact_read :
  let p := mkParser [x01; x02; x03; x04; x05] 3 "reading" zeroNode in
  read 4 p
  = (p, inl (mkParseError "reading"
                          "internal read error (buffer too small)" 3))
  /\ read 2 p = (set_i p 5, inr [x04; x05])
  /\ 0 <= p_i (fst (parseHeader (newParser minimalDocument))).
Proof.
  split; [| split].
  - exact (proj2 (proj1 C8_cursor_discipline
                    (mkParser [x01; x02; x03; x04; x05] 3 "reading" zeroNode)
                    4 ltac:(unfold inBounds; cbn; lia) ltac:(lia))
                 ltac:(cbn; lia)).
  - exact (proj1 (proj1 (proj1 C8_cursor_discipline
                    (mkParser [x01; x02; x03; x04; x05] 3 "reading" zeroNode)
                    2 ltac:(unfold inBounds; cbn; lia) ltac:(lia))
                 ltac:(cbn; lia))).
  - exact (proj1 (proj2 (proj1 (proj1 (proj2 C8_cursor_discipline))
                          (newParser minimalDocument)
                          ltac:(unfold inBounds; cbn; lia)))).
Defined.

(** ** Where the windows are unpacked *)

Section Windows.

Variables b0 b1 b2 b3 b4 : byte.

(** [parseRoots] on a root window followed by a zero connection count. *)
Lemma parseRoots_window (p : parser) (rest : list byte) :
  0 <= p_i p ->
  remaining p = [b0; b1; b2; b3; b4] ++ x00 :: rest ->
  let pos := [b0; b1; b2; b3; b4] in
  let p' := mkParser (p_buf p) (p_i p + 6) "reading amount of connections"
                     (withRootPositions
                        (mkPosition (Unpack.field0 pos) (Unpack.field1 pos))
                        (mkPosition (Unpack.field2 pos) (Unpack.field3 pos))
                        (p_n p)) in
  parseRoots p = (p', inr tt) /\ remaining p' = rest.
Proof.
  intros Hi Hrem pos p'.
  set (q0 := set_ctx p "unpacking root positions").
  destruct (read_ok q0 pos (x00 :: rest) Hi Hrem) as [R Hrem5].
  cbn [List.length pos Z.of_nat Pos.of_succ_nat Pos.succ] in R, Hrem5.
  set (q1 := set_ctx
               (set_n (set_i q0 (p_i q0 + 5))
                      (withRootPositions
                         (mkPosition (Unpack.field0 pos) (Unpack.field1 pos))
                         (mkPosition (Unpack.field2 pos) (Unpack.field3 pos))
                         (p_n p)))
               "reading amount of connections").
  assert (Hi1 : 0 <= p_i q1) by (cbn; lia).
  destruct (readByte_ok q1 x00 rest Hi1 Hrem5) as [R1 Hrem6].
  cbn [p_i q1 q0 set_ctx set_n set_i] in R1, Hrem6.
  replace (p_i p + 5 + 1) with (p_i p + 6) in R1, Hrem6 by lia.
  split; [| exact Hrem6].
  unfold parseRoots.
  rewrite (bind_ok _ _ _ q0 tt eq_refl).
  rewrite (bind_ok _ _ _ _ _ R).
  rewrite (bind_ok _ _ _ _ tt eq_refl).
  rewrite (bind_ok _ _ _ q1 tt eq_refl).
  rewrite (bind_ok _ _ _ _ _ R1).
  reflexivity.
Qed.

(** [parseInstance] up to its socket loop: key, type, window and name. *)
Lemma parseInstance_window (p : parser) (ii : Z) (key type : byte)
      (name rest : list byte) :
  0 <= p_i p ->
  remaining p = key :: type :: [b0; b1; b2; b3] ++ name ++ rest ->
  Z.of_nat (List.length name) = Unpack.instNameLen [b0; b1; b2; b3] ->
  let w := [b0; b1; b2; b3] in
  let p' := mkParser (p_buf p) (p_i p + 6 + Unpack.instNameLen w)
                     ("parsing instance [" ++ Fmt.d ii ++ "]") (p_n p) in
  parseInstance ii p
  = bind (forRange (Z.to_nat (Unpack.instSockCount w)) 0
            (fun si i =>
               setCtx ("parsing socket [" ++ Fmt.d si ++ "] in instance ["
                       ++ Fmt.d ii ++ "]") ;;
               parseSocket i)
            (mkInstance key type (string_of_list_byte name)
                        (mkPosition (Unpack.field0 w) (Unpack.field1 w)) []))
         (fun i => modifyNode (appendInstance i)) p'
  /\ remaining p' = rest.
Proof.
  intros Hi Hrem Hname w p'.
  set (q0 := set_ctx p ("parsing instance [" ++ Fmt.d ii ++ "]")).
  destruct (readByte_ok q0 key _ Hi Hrem) as [R1 Hrem1].
  set (q1 := set_i q0 (p_i q0 + 1)) in *.
  assert (Hi1 : 0 <= p_i q1) by (cbn; lia).
  destruct (readByte_ok q1 type _ Hi1 Hrem1) as [R2 Hrem2].
  set (q2 := set_i q1 (p_i q1 + 1)) in *.
  assert (Hi2 : 0 <= p_i q2) by (cbn; lia).
  destruct (read_ok q2 w (name ++ rest) Hi2 Hrem2) as [R3 Hrem3].
  cbn [List.length w Z.of_nat Pos.of_succ_nat Pos.succ] in R3, Hrem3.
  set (q3 := set_i q2 (p_i q2 + 4)) in *.
  assert (Hi3 : 0 <= p_i q3) by (cbn; lia).
  destruct (read_ok q3 name rest Hi3 Hrem3) as [R4 Hrem4].
  rewrite Hname in R4, Hrem4. fold w in R4, Hrem4.
  assert (Hq : set_i q3 (p_i q3 + Unpack.instNameLen w) = p').
  { unfold p', q3, q2, q1, q0, set_i, set_ctx. cbn [p_i p_buf p_ctx p_n].
    f_equal. lia. }
  rewrite Hq in R4, Hrem4.
  split; [| exact Hrem4].
  unfold parseInstance.
  rewrite (bind_ok _ _ _ q0 tt eq_refl).
  rewrite (bind_ok _ _ _ _ _ R1).
  rewrite (bind_ok _ _ _ _ _ R2).
  rewrite (bind_ok _ _ _ _ _ R3).
  cbv zeta. fold w.
  rewrite (bind_ok _ _ _ _ _ R4).
  reflexivity.
Qed.

End Windows.

(** C2: the unpacking arithmetic is exact.  For every instance window
    [b0 b1 b2 b3] the instance parser stores the position
    X = (b0 << 2 | b1 >> 6) - 500, Y = ((b1 & 0x3F) << 4 | b2 >> 4) - 500,
    reads a name of (b2 & 0x0F) << 2 | b3 >> 6 bytes and then b3 & 0x3F
    sockets.  Every position coordinate, of an instance or of a root, is
    the raw ten bit field of its window minus 500; the raw field lies
    between 0 and 1023, and the raw values 0 and 1023 give -500 and 523. *)
Theorem C2_unpacking_exact (b0 b1 b2 b3 b4 : byte) :
  let w := [b0; b1; b2; b3] in
  let pos := [b0; b1; b2; b3; b4] in
  let x := Z.lor (Z.shiftl (u8 b0) 2) (Z.shiftr (u8 b1) 6) - 500 in
  let y :=
    Z.lor (Z.shiftl (Z.land (u8 b1) 0x3F) 4) (Z.shiftr (u8 b2) 4) - 500 in
  let nameLength :=
    Z.lor (Z.shiftl (Z.land (u8 b2) 0x0F) 2) (Z.shiftr (u8 b3) 6) in
  let socketCount := Z.land (u8 b3) 0x3F in
  (Unpack.field0 w = x /\ Unpack.field1 w = y
   /\ Unpack.instNameLen w = nameLength
   /\ Unpack.instSockCount w = socketCount)
  /\ (forall (p : parser) (ii : Z) (key type : byte) (name rest : list byte),
         0 <= p_i p ->
         remaining p = key :: type :: w ++ name ++ rest ->
         Z.of_nat (List.length name) = nameLength ->
         parseInstance ii p
         = bind (forRange (Z.to_nat socketCount) 0
                   (fun si i =>
                      setCtx ("parsing socket [" ++ Fmt.d si
                              ++ "] in instance [" ++ Fmt.d ii ++ "]") ;;
                      parseSocket i)
                   (mkInstance key type (string_of_list_byte name)
                               (mkPosition x y) []))
                (fun i => modifyNode (appendInstance i))
                (mkParser (p_buf p) (p_i p + 6 + nameLength)
                          ("parsing instance [" ++ Fmt.d ii ++ "]") (p_n p)))
  /\ (x = Layout.bits w 0 10 - 500 /\ y = Layout.bits w 10 10 - 500
      /\ nameLength = Layout.bits w 20 6 /\ socketCount = Layout.bits w 26 6)
  /\ (forall (p : parser) (rest : list byte),
         0 <= p_i p -> remaining p = pos ++ x00 :: rest ->
         exists p' : parser,
           parseRoots p = (p', inr tt)
           /\ InputRootPosition (p_n p')
              = mkPosition (Layout.bits pos 0 10 - 500)
                           (Layout.bits pos 10 10 - 500)
           /\ oPosition (OutputRoot (p_n p'))
              = mkPosition (Layout.bits pos 20 10 - 500)
                           (Layout.bits pos 30 10 - 500))
  /\ (forall (win : list byte) (off : Z),
         0 <= Layout.bits win off 10 <= 1023)
  /\ (Layout.bits [x00; x00; x00; x00] 0 10 = 0
      /\ Unpack.field0 [x00; x00; x00; x00] = -500
      /\ Layout.bits [xff; xff; xff; xff] 0 10 = 1023
      /\ Unpack.field0 [xff; xff; xff; xff] = 523).
Proof.
  intros w pos x y nameLength socketCount.
  destruct (instance_formulas b0 b1 b2 b3) as (Hx & Hy & Hn & Hc).
  fold w x y nameLength socketCount in Hx, Hy, Hn, Hc.
  split; [auto |].
  split.
  { intros p ii key type name rest Hi Hrem Hname.
    rewrite <- Hn in Hname.
    destruct (parseInstance_window b0 b1 b2 b3 p ii key type name rest
                                   Hi Hrem Hname) as [Hrun _].
    fold w in Hrun. rewrite Hx, Hy, Hn, Hc in Hrun. exact Hrun. }
  split.
  { rewrite <- Hx, <- Hy, <- Hn, <- Hc. unfold w.
    rewrite field0_bits4, field1_bits4, instNameLen_bits4,
      instSockCount_bits4.
    unfold Layout.bias. auto. }
  split.
  { intros p rest Hi Hrem.
    destruct (parseRoots_window b0 b1 b2 b3 b4 p rest Hi Hrem) as [Hrun _].
    eexists. split; [exact Hrun |].
    cbn [p_n InputRootPosition OutputRoot oPosition withRootPositions].
    fold pos. unfold pos.
    rewrite field0_bits5, field1_bits5, field2_bits5, field3_bits5.
    unfold Layout.bias. auto. }
  split.
  { intros win off. apply (bits_range win off 10). lia. }
  repeat split; reflexivity.
Qed.

(** An instance window with coordinates 523 and -440, a one byte name and no
    socket; a root window of zeros. *)
Lemma C2_windows_decoded :
  parseInstance 0
    (mkParser [x07; x09; xff; xc3; xc0; x40; "A"%byte] 0 EmptyString zeroNode)
  = (mkParser [x07; x09; xff; xc3; xc0; x40; "A"%byte] 7
              "parsing instance [0]"
              (appendInstance
                 (mkInstance x07 x09 "A" (mkPosition 523 (-440)) [])
                 zeroNode),
     inr tt)
  /\ exists p' : parser,
       parseRoots
         (mkParser [x00; x00; x00; x00; x00; x00] 0 EmptyString zeroNode)
       = (p', inr tt)
       /\ InputRootPosition (p_n p') = mkPosition (-500) (-500)
       /\ oPosition (OutputRoot (p_n p')) = mkPosition (-500) (-500).
Proof.
  split.
  - exact (eq_trans
             (proj1 (proj2 (C2_unpacking_exact xff xc3 xc0 x40 x00))
                (mkParser [x07; x09; xff; xc3; xc0; x40; "A"%byte] 0
                          EmptyString zeroNode)
                0 x07 x09 ["A"%byte] [] ltac:(cbn; lia) eq_refl eq_refl)
             eq_refl).
  - exact (proj1 (proj2 (proj2 (proj2 (C2_unpacking_exact
                                         x00 x00 x00 x00 x00))))
                 (mkParser [x00; x00; x00; x00; x00; x00] 0 EmptyString
                           zeroNode)
                 [] ltac:(cbn; lia) eq_refl).
Defined.

(** ** Decoding what the format lays out *)

Section Decoding.

Lemma remaining_after (p p' : parser) (bs rest : list byte) :
  0 <= p_i p -> remaining p = bs ++ rest ->
  p_buf p' = p_buf p -> p_i p' = p_i p + Z.of_nat (List.length bs) ->
  remaining p' = rest.
Proof.
  intros Hi Hrem Hbuf Hpos. unfold remaining in *.
  rewrite Hbuf, Hpos.
  replace (Z.to_nat (p_i p + Z.of_nat (List.length bs)))
    with (List.length bs + Z.to_nat (p_i p))%nat by lia.
  rewrite <- skipn_skipn, Hrem, skipn_app, Nat.sub_diag, skipn_all.
  reflexivity.
Qed.

Lemma decodesFrom_ret {A} (n0 : Node) (a : A) :
  decodesFrom n0 (ret a) [] a n0.
Proof.
  intros p rest Hi Hn Hrem. exists p. cbn. repeat split; [lia | exact Hn].
Qed.

Lemma decodesFrom_bind {A B} (n0 n1 n2 : Node) (m : M A) (k : A -> M B)
      (bs1 bs2 : list byte) (a : A) (b : B) :
  decodesFrom n0 m bs1 a n1 -> decodesFrom n1 (k a) bs2 b n2 ->
  decodesFrom n0 (bind m k) (bs1 ++ bs2) b n2.
Proof.
  intros Hm Hk p rest Hi Hn Hrem. rewrite <- app_assoc in Hrem.
  destruct (Hm p _ Hi Hn Hrem) as (p1 & R1 & Hbuf1 & Hpos1 & Hn1).
  assert (Hrem1 : remaining p1 = bs2 ++ rest)
    by (apply (remaining_after p p1 bs1); assumption).
  destruct (Hk p1 rest ltac:(lia) Hn1 Hrem1)
    as (p2 & R2 & Hbuf2 & Hpos2 & Hn2).
  exists p2. rewrite (bind_ok _ _ _ _ _ R1).
  repeat split; try assumption; [congruence |].
  rewrite length_app. lia.
Qed.

Lemma decodesFrom_setCtx {A} (n0 n1 : Node) (c : string) (k : unit -> M A)
      (bs : list byte) (a : A) :
  decodesFrom n0 (k tt) bs a n1 -> decodesFrom n0 (bind (setCtx c) k) bs a n1.
Proof.
  intros Hk p rest Hi Hn Hrem.
  destruct (Hk (set_ctx p c) rest Hi Hn Hrem) as (p' & R & Hbuf & Hpos & Hn').
  exists p'. rewrite (bind_ok _ _ _ (set_ctx p c) tt eq_refl).
  repeat split; assumption.
Qed.

Lemma decodesFrom_modifyNode {A} (n0 n1 : Node) (g : Node -> Node)
      (k : unit -> M A) (bs : list byte) (a : A) :
  decodesFrom (g n0) (k tt) bs a n1 ->
  decodesFrom n0 (bind (modifyNode g) k) bs a n1.
Proof.
  intros Hk p rest Hi Hn Hrem.
  destruct (Hk (set_n p (g (p_n p))) rest Hi
               ltac:(cbn; rewrite Hn; reflexivity) Hrem)
    as (p' & R & Hbuf & Hpos & Hn').
  exists p'. rewrite (bind_ok _ _ _ (set_n p (g (p_n p))) tt eq_refl).
  repeat split; assumption.
Qed.

Lemma decodesFrom_read {A} (n0 n1 : Node) (size : Z) (w : list byte)
      (k : list byte -> M A) (bs : list byte) (a : A) :
  size = Z.of_nat (List.length w) ->
  decodesFrom n0 (k w) bs a n1 ->
  decodesFrom n0 (bind (read size) k) (w ++ bs) a n1.
Proof.
  intros Hsize Hk. subst size.
  apply (decodesFrom_bind n0 n0 n1 _ _ w bs w a); [| exact Hk].
  intros p rest Hi Hn Hrem.
  destruct (read_ok p w rest Hi Hrem) as [R _].
  exists (set_i p (p_i p + Z.of_nat (List.length w))).
  repeat split; assumption.
Qed.

Lemma decodesFrom_readByte {A} (n0 n1 : Node) (b : byte)
      (k : byte -> M A) (bs : list byte) (a : A) :
  decodesFrom n0 (k b) bs a n1 ->
  decodesFrom n0 (bind readByte k) (b :: bs) a n1.
Proof.
  intros Hk.
  apply (decodesFrom_bind n0 n0 n1 _ _ [b] bs b a); [| exact Hk].
  intros p rest Hi Hn Hrem.
  destruct (readByte_ok p b rest Hi Hrem) as [R _].
  exists (set_i p (p_i p + 1)). repeat split; assumption.
Qed.

(** A loop that runs once per element of [xs], each round decoding the
    bytes of one element. *)
Lemma decodesFrom_forRange {A T} (ok : T -> Prop) (body : Z -> A -> M A)
      (enc : T -> list byte) (accf : A -> T -> A) (nf : Node -> T -> Node) :
  (forall x idx acc n0,
      ok x -> decodesFrom n0 (body idx acc) (enc x) (accf acc x) (nf n0 x)) ->
  forall xs idx acc n0,
    Forall ok xs ->
    decodesFrom n0 (forRange (List.length xs) idx body acc)
                (flat_map enc xs) (fold_left accf xs acc)
                (fold_left nf xs n0).
Proof.
  intros Hbody xs.
  induction xs as [| x xs IH]; intros idx acc n0 Hok; cbn.
  - apply decodesFrom_ret.
  - inversion Hok; subst.
    eapply decodesFrom_bind; [apply Hbody; assumption | apply IH; assumption].
Qed.

End Decoding.

(** ** Bytes, lengths and packed windows of the layout *)

Section LayoutArith.

Lemma u8_byte_of_Z (z : Z) : u8 (byte_of_Z z) = z mod 256.
Proof.
  unfold u8, byte_of_Z.
  pose proof (Z.mod_pos_bound z 256 ltac:(lia)) as Hm.
  destruct (Byte.of_N (Z.to_N (z mod 256))) as [b |] eqn:E.
  - apply Byte.to_of_N in E. rewrite E. lia.
  - apply Byte.of_N_None_iff in E. lia.
Qed.

Lemma byte_of_Z_u8 (b : byte) : byte_of_Z (u8 b) = b.
Proof.
  unfold byte_of_Z. pose proof (u8_range b) as Hb.
  rewrite Z.mod_small by exact Hb. unfold u8. rewrite N2Z.id.
  rewrite Byte.of_to_N. reflexivity.
Qed.

Lemma u8_len8 (k : nat) : (k <= 255)%nat -> u8 (Format.len8 k) = Z.of_nat k.
Proof.
  intros Hk. unfold Format.len8. rewrite u8_byte_of_Z.
  apply Z.mod_small. lia.
Qed.

Lemma to_nat_u8_len8 (k : nat) :
  (k <= 255)%nat -> Z.to_nat (u8 (Format.len8 k)) = k.
Proof. intros Hk. rewrite u8_len8 by exact Hk. apply Nat2Z.id. Qed.

Lemma length_list_byte_of_string (s : string) :
  List.length (list_byte_of_string s) = String.length s.
Proof.
  induction s as [| c s IH]; [reflexivity |].
  cbn. rewrite <- IH. reflexivity.
Qed.

Lemma Uint32_sum (bs : list byte) :
  Uint32 bs
  = u8 (nth 0 bs x00) * 2 ^ 24 + u8 (nth 1 bs x00) * 2 ^ 16
    + u8 (nth 2 bs x00) * 2 ^ 8 + u8 (nth 3 bs x00).
Proof.
  unfold Uint32.
  pose proof (u8_range (nth 0 bs x00)) as H0.
  pose proof (u8_range (nth 1 bs x00)) as H1.
  pose proof (u8_range (nth 2 bs x00)) as H2.
  pose proof (u8_range (nth 3 bs x00)) as H3.
  set (a0 := u8 (nth 0 bs x00)) in *. set (a1 := u8 (nth 1 bs x00)) in *.
  set (a2 := u8 (nth 2 bs x00)) in *. set (a3 := u8 (nth 3 bs x00)) in *.
  clearbody a0 a1 a2 a3.
  rewrite (Z.lor_comm a3).
  rewrite (lor_shiftl_low a2 a3 8) by (change (2 ^ 8) with 256; lia).
  rewrite (Z.lor_comm _ (Z.shiftl a1 16)).
  rewrite (lor_shiftl_low a1 _ 16)
    by (change (2 ^ 16) with 65536; change (2 ^ 8) with 256; lia).
  rewrite (Z.lor_comm _ (Z.shiftl a0 24)).
  rewrite (lor_shiftl_low a0 _ 24)
    by (change (2 ^ 24) with 16777216; change (2 ^ 16) with 65536;
        change (2 ^ 8) with 256; lia).
  lia.
Qed.

Lemma Uint32_range (bs : list byte) : 0 <= Uint32 bs < 2 ^ 32.
Proof.
  rewrite Uint32_sum.
  pose proof (u8_range (nth 0 bs x00)). pose proof (u8_range (nth 1 bs x00)).
  pose proof (u8_range (nth 2 bs x00)). pose proof (u8_range (nth 3 bs x00)).
  change (2 ^ 32) with 4294967296. change (2 ^ 24) with 16777216.
  change (2 ^ 16) with 65536. change (2 ^ 8) with 256. lia.
Qed.

Lemma Uint32_be32 (z : Z) : 0 <= z < 2 ^ 32 -> Uint32 (Format.be32 z) = z.
Proof.
  intros Hz. rewrite Uint32_sum. unfold Format.be32. cbn [map nth].
  rewrite !u8_byte_of_Z.
  change (2 ^ 32) with 4294967296 in Hz.
  change (2 ^ 24) with 16777216. change (2 ^ 16) with 65536.
  change (2 ^ 8) with 256.
  Z.div_mod_to_equations. lia.
Qed.

End LayoutArith.

Section Windows2.

(** Reduces an equation between unpacked bytes of a packed number to linear
    arithmetic. *)
Ltac window_arith :=
  rewrite ?u8_byte_of_Z;
  repeat match goal with
         | |- context [2 ^ Z.pos ?p] =>
             let v := eval vm_compute in (2 ^ Z.pos p) in
             change (2 ^ Z.pos p) with v
         end;
  Z.div_mod_to_equations; lia.

Lemma rootWindow_fields (pin pout : Position) :
  wfPosition pin -> wfPosition pout ->
  let w := Format.rootWindow pin pout in
  Unpack.field0 w = X pin /\ Unpack.field1 w = Y pin
  /\ Unpack.field2 w = X pout /\ Unpack.field3 w = Y pout.
Proof.
  intros [Hx1 Hy1] [Hx2 Hy2]. unfold wfCoordinate in *.
  unfold Format.rootWindow, Format.raw. cbn [map]. cbv zeta.
  rewrite field0_arith, field1_arith, field2_arith, field3_arith.
  set (a := X pin) in *. set (b := Y pin) in *.
  set (c := X pout) in *. set (d := Y pout) in *.
  clearbody a b c d.
  repeat split; window_arith.
Qed.

Lemma instanceWindow_fields (pos : Position) (nameLen sockCount : Z) :
  wfPosition pos -> 0 <= nameLen <= 63 -> 0 <= sockCount <= 63 ->
  let w := Format.instanceWindow pos nameLen sockCount in
  Unpack.field0 w = X pos /\ Unpack.field1 w = Y pos
  /\ Unpack.instNameLen w = nameLen /\ Unpack.instSockCount w = sockCount.
Proof.
  intros [Hx Hy] Hn Hs. unfold wfCoordinate in *.
  unfold Format.instanceWindow, Format.raw. cbn [map]. cbv zeta.
  rewrite field0_arith, field1_arith, instNameLen_arith,
    instSockCount_arith.
  set (a := X pos) in *. set (b := Y pos) in *. clearbody a b.
  repeat split; window_arith.
Qed.

Lemma rootWindow_length (pin pout : Position) :
  List.length (Format.rootWindow pin pout) = 5%nat.
Proof. reflexivity. Qed.

Lemma instanceWindow_length (pos : Position) (nameLen sockCount : Z) :
  List.length (Format.instanceWindow pos nameLen sockCount) = 4%nat.
Proof. reflexivity. Qed.

(** The flags byte gives back the four values packed in it. *)
Lemma flags_fields (t : byte) (r c v : bool) :
  u8 t <= 7 ->
  let f := byte_of_Z (u8 t * 8 + (if r then 4 else 0) + (if c then 2 else 0)
                      + (if v then 1 else 0)) in
  Unpack.socketType f = t /\ Unpack.repetitive f = r
  /\ Unpack.connected f = c /\ Unpack.switchValue f = v.
Proof.
  intros Ht.
  destruct t;
    first [ exfalso; apply Ht; reflexivity
          | destruct r, c, v; vm_compute; repeat split ].
Qed.

End Windows2.

Section SocketLayout.

Lemma decodesFrom_readUint32 {A} (n0 n1 : Node) (z : Z) (k : Z -> M A)
      (bs : list byte) (a : A) :
  0 <= z < 2 ^ 32 ->
  decodesFrom n0 (k z) bs a n1 ->
  decodesFrom n0 (bind readUint32 k) (Format.be32 z ++ bs) a n1.
Proof.
  intros Hz Hk.
  apply (decodesFrom_bind n0 n0 n1 _ _ (Format.be32 z) bs z a); [| exact Hk].
  unfold readUint32.
  rewrite <- (app_nil_r (Format.be32 z)).
  apply decodesFrom_read; [reflexivity |].
  rewrite (Uint32_be32 z Hz). apply decodesFrom_ret.
Qed.

(** The socket the decoder holds after the first three bytes of the layout
    of [s]. *)
Lemma socketHead_flags (s : Socket) :
  u8 (sType s) <= 7 ->
  socketHead (Format.flags s) (sValueType s) (PortSlot s)
  = mkSocket (sType s) (sValueType s) (PortSlot s) (Repetitive s)
             (Connected s) x00 x00 EmptyString
  /\ Unpack.switchValue (Format.flags s) = (Value s =? "true")%string.
Proof.
  intros Ht.
  destruct (flags_fields (sType s) (Repetitive s) (Connected s)
                         (Value s =? "true")%string Ht)
    as (H1 & H2 & H3 & H4).
  unfold socketHead, Format.flags. rewrite H1, H2, H3, H4. auto.
Qed.

Lemma socketTail_layout (n0 : Node) (s : Socket) :
  wfSocket s ->
  decodesFrom n0
    (socketTail (Value s =? "true")%string
                (mkSocket (sType s) (sValueType s) (PortSlot s)
                          (Repetitive s) (Connected s) x00 x00 EmptyString))
    (Format.socketTailBytes s) s n0.
Proof.
  intros [Ht Hwf].
  destruct s as [t vt ps r c cs cn v]. cbn [sType sValueType PortSlot
    Repetitive Connected ConnectedSocket ConnectedNode Value] in *.
  unfold socketTail, Format.socketTailBytes.
  cbn [sType Connected Value ConnectedNode ConnectedSocket].
  destruct (Byte.eqb t OutgoingNamed).
  - destruct Hwf as (-> & -> & ->). cbn [negb]. apply decodesFrom_ret.
  - cbn [negb]. destruct c.
    + subst v.
      apply (decodesFrom_readByte n0 n0 cn _ [cs]).
      apply (decodesFrom_readByte n0 n0 cs _ []).
      apply decodesFrom_ret.
    + destruct Hwf as (-> & -> & Hv).
      destruct (Byte.eqb t IncomingSwitch).
      * cbn [negb].
        destruct Hv as [-> | ->]; apply decodesFrom_ret.
      * cbn [negb].
        apply decodesFrom_readUint32; [lia |].
        rewrite <- (app_nil_r (list_byte_of_string v)).
        apply decodesFrom_read;
          [rewrite length_list_byte_of_string; reflexivity |].
        unfold withValue. cbn.
        rewrite string_of_list_byte_of_string. apply decodesFrom_ret.
Qed.

Lemma parseSocket_layout (n0 : Node) (i : Instance) (s : Socket) :
  wfSocket s ->
  decodesFrom n0 (parseSocket i) (Format.socket s) (appendSocket s i) n0.
Proof.
  intros Hwf. pose proof Hwf as [Ht _].
  destruct (socketHead_flags s Ht) as [Hhead Hsv].
  unfold parseSocket, Format.socket.
  apply decodesFrom_readByte. cbv zeta.
  apply decodesFrom_readByte. apply decodesFrom_readByte.
  change (withPortSlot (PortSlot s)
            (withValueType (sValueType s)
               (withFlags (Unpack.socketType (Format.flags s))
                          (Unpack.connected (Format.flags s))
                          (Unpack.repetitive (Format.flags s)) zeroSocket)))
    with (socketHead (Format.flags s) (sValueType s) (PortSlot s)).
  rewrite Hhead, Hsv.
  rewrite <- (app_nil_r (Format.socketTailBytes s)).
  eapply decodesFrom_bind; [| apply decodesFrom_ret].
  apply socketTail_layout. exact Hwf.
Qed.

Lemma fold_appendSocket (xs : list Socket) (i : Instance) :
  fold_left (fun acc s => appendSocket s acc) xs i
  = mkInstance (Key i) (iType i) (Name i) (iPosition i) (Sockets i ++ xs).
Proof.
  revert i. induction xs as [| x xs IH]; intros i; cbn [fold_left].
  - rewrite app_nil_r. destruct i; reflexivity.
  - rewrite IH. cbn. rewrite <- app_assoc. reflexivity.
Qed.

Lemma fold_left_keep {A B} (xs : list B) (a : A) :
  fold_left (fun (x : A) (_ : B) => x) xs a = a.
Proof. induction xs as [| x xs IH]; [reflexivity | exact IH]. Qed.

Lemma parseInstance_layout (n0 : Node) (ii : Z) (i : Instance) :
  wfInstance i ->
  decodesFrom n0 (parseInstance ii) (Format.instance i) tt
              (appendInstance i n0).
Proof.
  intros (Hname & Hcount & Hpos & Hsockets).
  destruct (instanceWindow_fields
              (iPosition i) (Z.of_nat (String.length (Name i)))
              (Z.of_nat (List.length (Sockets i))) Hpos
              ltac:(lia) ltac:(lia)) as (Hx & Hy & Hn & Hc).
  cbv zeta in Hx, Hy, Hn, Hc.
  unfold parseInstance, Format.instance.
  apply decodesFrom_setCtx.
  apply decodesFrom_readByte. apply decodesFrom_readByte.
  change (?a :: ?b :: ?w ++ ?r) with (a :: b :: w ++ r).
  apply decodesFrom_read; [reflexivity |]. cbv zeta.
  rewrite Hx, Hy, Hn, Hc.
  apply decodesFrom_read;
    [rewrite length_list_byte_of_string; reflexivity |].
  rewrite string_of_list_byte_of_string, Nat2Z.id.
  rewrite <- (app_nil_r (flat_map Format.socket (Sockets i))).
  eapply decodesFrom_bind.
  - apply (decodesFrom_forRange wfSocket _ Format.socket
             (fun acc s => appendSocket s acc) (fun n _ => n)).
    + intros s idx acc n Hs. apply decodesFrom_setCtx.
      apply parseSocket_layout. exact Hs.
    + exact Hsockets.
  - rewrite fold_appendSocket. cbn [Key iType Name iPosition Sockets app].
    rewrite fold_left_keep. destruct i as [k t nm ps ss]. cbn.
    destruct ps.
    rewrite <- (app_nil_r []) at 1.
    apply (decodesFrom_modifyNode n0 _ _ (fun _ => ret tt)).
    apply decodesFrom_ret.
Qed.

End SocketLayout.

Section DocumentLayout.

Lemma parseInstances_layout (n0 : Node) (insts : list Instance) :
  (List.length insts <= 255)%nat -> Forall wfInstance insts ->
  decodesFrom n0 parseInstances (Format.instances insts) tt
              (fold_left (fun n i => appendInstance i n) insts n0).
Proof.
  intros Hlen Hwf. unfold parseInstances, Format.instances.
  apply decodesFrom_setCtx. apply decodesFrom_readByte.
  rewrite to_nat_u8_len8 by exact Hlen.
  replace tt with (fold_left (fun (u : unit) (_ : Instance) => u) insts tt)
    at 2 by apply fold_left_keep.
  apply (decodesFrom_forRange wfInstance (fun ii _ => parseInstance ii)
           Format.instance (fun u _ => u) (fun n i => appendInstance i n));
    [| exact Hwf].
  intros i idx [] n Hi. apply parseInstance_layout. exact Hi.
Qed.

Lemma parseTable_layout (n0 : Node) (append : string -> Node -> Node)
      (items : list string) :
  wfTable items ->
  decodesFrom n0 (parseTable (Format.len8 (List.length items)) append)
              (flat_map Format.tableItem items) tt
              (fold_left (fun n s => append s n) items n0).
Proof.
  intros [Hlen Hitems]. unfold parseTable.
  rewrite to_nat_u8_len8 by exact Hlen.
  replace tt with (fold_left (fun (u : unit) (_ : string) => u) items tt)
    at 2 by apply fold_left_keep.
  apply (decodesFrom_forRange (fun s => (String.length s <= 255)%nat)
           _ Format.tableItem (fun u _ => u) (fun n s => append s n));
    [| exact Hitems].
  intros s idx [] n Hs. unfold Format.tableItem.
  apply decodesFrom_readByte.
  rewrite <- (app_nil_r (list_byte_of_string s)).
  apply decodesFrom_read.
  - rewrite u8_len8 by exact Hs.
    rewrite length_list_byte_of_string. reflexivity.
  - rewrite string_of_list_byte_of_string.
    rewrite <- (app_nil_r []) at 1.
    apply (decodesFrom_modifyNode n _ _ (fun _ => ret tt)).
    apply decodesFrom_ret.
Qed.

Lemma parseNodesAndTypes_layout (n0 : Node) (nodes types : list string) :
  wfTable nodes -> wfTable types ->
  decodesFrom n0 parseNodesAndTypes
              (Format.table nodes ++ Format.table types) tt
              (fold_left (fun n s => appendType s n) types
                 (fold_left (fun n s => appendNode s n) nodes n0)).
Proof.
  intros Hnodes Htypes. unfold parseNodesAndTypes, Format.table.
  apply decodesFrom_setCtx. cbn [app].
  apply decodesFrom_readByte.
  eapply decodesFrom_bind; [apply parseTable_layout; exact Hnodes |].
  apply decodesFrom_setCtx. apply decodesFrom_readByte.
  apply parseTable_layout. exact Htypes.
Qed.

Lemma parseRoots_layout (n0 : Node) (pin pout : Position)
      (conns : list (byte * byte)) :
  wfPosition pin -> wfPosition pout -> (List.length conns <= 255)%nat ->
  decodesFrom n0 parseRoots
              (Format.rootWindow pin pout
               ++ Format.len8 (List.length conns)
               :: flat_map Format.connection conns) tt
              (fold_left (fun n c => appendConnection c n) conns
                 (withRootPositions pin pout n0)).
Proof.
  intros Hin Hout Hlen.
  destruct (rootWindow_fields pin pout Hin Hout) as (H0 & H1 & H2 & H3).
  cbv zeta in H0, H1, H2, H3.
  unfold parseRoots.
  apply decodesFrom_setCtx.
  apply decodesFrom_read; [reflexivity |].
  rewrite H0, H1, H2, H3.
  replace (mkPosition (X pin) (Y pin)) with pin by (destruct pin; reflexivity).
  replace (mkPosition (X pout) (Y pout)) with pout
    by (destruct pout; reflexivity).
  apply decodesFrom_modifyNode. apply decodesFrom_setCtx.
  apply decodesFrom_readByte.
  rewrite to_nat_u8_len8 by exact Hlen.
  replace tt with (fold_left (fun (u : unit) (_ : byte * byte) => u) conns tt)
    at 2 by apply fold_left_keep.
  apply (decodesFrom_forRange (fun _ => True) _ Format.connection
           (fun u _ => u) (fun n c => appendConnection c n));
    [| apply Forall_forall; auto].
  intros [a b] idx [] n _. unfold Format.connection. cbn [fst snd].
  apply decodesFrom_setCtx.
  change [a; b] with ([a; b] ++ []).
  apply decodesFrom_read; [reflexivity |].
  rewrite <- (app_nil_r []) at 1.
  apply (decodesFrom_modifyNode n _ _ (fun _ => ret tt)).
  apply decodesFrom_ret.
Qed.

Lemma parseHeader_layout (n0 : Node) (v : byte) :
  u8 v <= LATEST_VERSION ->
  decodesFrom n0 parseHeader (list_byte_of_string MAGIC_NUMBER ++ [v]) tt
              (withVersion v n0).
Proof.
  intros Hv p rest Hi Hn Hrem. rewrite <- app_assoc in Hrem.
  destruct (parseHeader_magic p v rest Hi Hrem) as [Hrun _].
  replace (u8 v >? LATEST_VERSION) with false in Hrun
    by (symmetry; rewrite Z.gtb_ltb; apply Z.ltb_ge; exact Hv).
  eexists. split; [exact Hrun |]. cbn. rewrite Hn. repeat split.
Qed.

Lemma fold_appendConnection (xs : list (byte * byte)) (n : Node) :
  fold_left (fun n c => appendConnection c n) xs n
  = mkNode (Version n) (InputRootPosition n)
           (mkOutputRoot (oPosition (OutputRoot n))
                         (Connections (OutputRoot n) ++ xs))
           (Nodes n) (Types n) (Instances n).
Proof.
  revert n. induction xs as [| x xs IH]; intros n; cbn [fold_left].
  - rewrite app_nil_r. destruct n as [? ? [? ?] ? ? ?]; reflexivity.
  - rewrite IH. cbn. rewrite <- app_assoc. reflexivity.
Qed.

Lemma fold_appendNode (xs : list string) (n : Node) :
  fold_left (fun n s => appendNode s n) xs n
  = mkNode (Version n) (InputRootPosition n) (OutputRoot n) (Nodes n ++ xs)
           (Types n) (Instances n).
Proof.
  revert n. induction xs as [| x xs IH]; intros n; cbn [fold_left].
  - rewrite app_nil_r. destruct n; reflexivity.
  - rewrite IH. cbn. rewrite <- app_assoc. reflexivity.
Qed.

Lemma fold_appendType (xs : list string) (n : Node) :
  fold_left (fun n s => appendType s n) xs n
  = mkNode (Version n) (InputRootPosition n) (OutputRoot n) (Nodes n)
           (Types n ++ xs) (Instances n).
Proof.
  revert n. induction xs as [| x xs IH]; intros n; cbn [fold_left].
  - rewrite app_nil_r. destruct n; reflexivity.
  - rewrite IH. cbn. rewrite <- app_assoc. reflexivity.
Qed.

Lemma fold_appendInstance (xs : list Instance) (n : Node) :
  fold_left (fun n i => appendInstance i n) xs n
  = mkNode (Version n) (InputRootPosition n) (OutputRoot n) (Nodes n)
           (Types n) (Instances n ++ xs).
Proof.
  revert n. induction xs as [| x xs IH]; intros n; cbn [fold_left].
  - rewrite app_nil_r. destruct n; reflexivity.
  - rewrite IH. cbn. rewrite <- app_assoc. reflexivity.
Qed.

Lemma decodesFrom_split {A B} (n0 n1 n2 : Node) (m : M A) (k : A -> M B)
      (bs bs1 bs2 : list byte) (a : A) (b : B) :
  bs = bs1 ++ bs2 ->
  decodesFrom n0 m bs1 a n1 -> decodesFrom n1 (k a) bs2 b n2 ->
  decodesFrom n0 (bind m k) bs b n2.
Proof. intros ->. apply decodesFrom_bind. Qed.

(** The whole decode on the layout of a document. *)
Lemma parse_layout (n : Node) :
  wfNode n ->
  forall n0 : Node, decodesFrom n0 parse (Format.document n) n n.
Proof.
  intros (Hv & Hin & Hout & Hconns & Hnodes & Htypes & Hcount & Hinsts) n0.
  unfold parse, Format.document.
  apply decodesFrom_modifyNode.
  apply (decodesFrom_split _ _ _ _ _ _
           (list_byte_of_string MAGIC_NUMBER ++ [Version n])
           (Format.roots n ++ Format.table (Nodes n)
            ++ Format.table (Types n) ++ Format.instances (Instances n))
           tt _ ltac:(rewrite <- app_assoc; reflexivity)
           (parseHeader_layout _ _ Hv)).
  apply (decodesFrom_split _ _ _ _ _ _
           (Format.roots n)
           (Format.table (Nodes n) ++ Format.table (Types n)
            ++ Format.instances (Instances n))
           tt _ eq_refl
           (parseRoots_layout _ _ _ _ Hin Hout Hconns)).
  apply (decodesFrom_split _ _ _ _ _ _
           (Format.table (Nodes n) ++ Format.table (Types n))
           (Format.instances (Instances n))
           tt _ ltac:(rewrite <- app_assoc; reflexivity)
           (parseNodesAndTypes_layout _ _ _ Hnodes Htypes)).
  apply (decodesFrom_split _ _ _ _ _ _
           (Format.instances (Instances n)) [] tt _
           ltac:(rewrite app_nil_r; reflexivity)
           (parseInstances_layout _ _ Hcount Hinsts)).
  rewrite fold_appendInstance, fold_appendType, fold_appendNode,
    fold_appendConnection.
  cbn [Version InputRootPosition OutputRoot Nodes Types Instances oPosition
       Connections withRootPositions withVersion zeroNode app].
  replace (mkNode (Version n) (InputRootPosition n)
             (mkOutputRoot (oPosition (OutputRoot n))
                           (Connections (OutputRoot n)))
             (Nodes n) (Types n) (Instances n)) with n
    by (destruct n as [? ? [? ?] ? ? ?]; reflexivity).
  intros p rest Hi Hn Hrem. exists p.
  split; [unfold getNode; rewrite Hn; reflexivity |].
  cbn. repeat split; [lia | exact Hn].
Qed.

End DocumentLayout.

(** ** What a successful decode guarantees *)

Section Ensures.

Lemma ensures_ret {A} (P : Node -> Prop) (a : A) (Q : A -> Node -> Prop) :
  (forall n, P n -> Q a n) -> ensures P (ret a) Q.
Proof. intros H p p' a' HP E. inversion E; subst. auto. Qed.

Lemma ensures_bind {A B} (P : Node -> Prop) (m : M A) (k : A -> M B)
      (Q : A -> Node -> Prop) (R : B -> Node -> Prop) :
  ensures P m Q -> (forall a, ensures (Q a) (k a) R) ->
  ensures P (bind m k) R.
Proof.
  intros Hm Hk p p' b HP E. unfold bind in E.
  destruct (m p) as [p1 [e | a]] eqn:Em; [discriminate |].
  exact (Hk a p1 p' b (Hm p p1 a HP Em) E).
Qed.

Lemma ensures_weaken {A} (P : Node -> Prop) (m : M A)
      (Q Q' : A -> Node -> Prop) :
  ensures P m Q -> (forall a n, Q a n -> Q' a n) -> ensures P m Q'.
Proof. intros Hm HQ p p' a HP E. exact (HQ _ _ (Hm p p' a HP E)). Qed.

Lemma ensures_pre {A} (P P' : Node -> Prop) (m : M A)
      (Q : A -> Node -> Prop) :
  (forall n, P n -> P' n) -> ensures P' m Q -> ensures P m Q.
Proof. intros HP Hm p p' a Hp E. exact (Hm p p' a (HP _ Hp) E). Qed.

Lemma ensures_fail {A} (P : Node -> Prop) (msg : string)
      (Q : A -> Node -> Prop) :
  ensures P (fail msg) Q.
Proof. intros p p' a _ E. discriminate E. Qed.

Lemma ensures_setCtx (P : Node -> Prop) (c : string) :
  ensures P (setCtx c) (fun _ n => P n).
Proof. intros p p' a HP E. inversion E; subst. exact HP. Qed.

Lemma ensures_modifyNode (P : Node -> Prop) (g : Node -> Node) :
  ensures P (modifyNode g) (fun _ n => exists n0, P n0 /\ n = g n0).
Proof.
  intros p p' a HP E. inversion E; subst. exists (p_n p). auto.
Qed.

Lemma ensures_getNode (P : Node -> Prop) :
  ensures P getNode (fun a n => P n /\ a = n).
Proof. intros p p' a HP E. inversion E; subst. auto. Qed.

(** A successful read leaves the node alone and returns [size] bytes. *)
Lemma ensures_read (P : Node -> Prop) (size : Z) :
  ensures P (read size)
          (fun bs n => P n /\ List.length bs = Z.to_nat size).
Proof.
  intros p p' bs HP E. unfold read in E.
  destruct (Z.of_nat (List.length (remaining p)) <? size) eqn:Hlt;
    [discriminate |].
  apply Z.ltb_ge in Hlt. inversion E; subst. cbn [p_n set_i].
  split; [exact HP |]. rewrite length_firstn. lia.
Qed.

Lemma ensures_readByte (P : Node -> Prop) :
  ensures P readByte (fun _ n => P n).
Proof.
  unfold readByte.
  eapply ensures_bind; [apply ensures_read |].
  intros bs. apply ensures_ret. intros n [HP _]. exact HP.
Qed.

Lemma ensures_readUint32 (P : Node -> Prop) :
  ensures P readUint32 (fun z n => P n /\ 0 <= z < 2 ^ 32).
Proof.
  unfold readUint32.
  eapply ensures_bind; [apply ensures_read |].
  intros bs. apply ensures_ret. intros n [HP _].
  split; [exact HP | apply Uint32_range].
Qed.

(** A loop, with an invariant on the number of rounds done, the local and
    the node. *)
Lemma ensures_forRange {A} (I : nat -> A -> Node -> Prop)
      (body : Z -> A -> M A) :
  (forall j idx acc,
      ensures (I j acc) (body idx acc) (fun acc' n => I (S j) acc' n)) ->
  forall count j idx acc,
    ensures (I j acc) (forRange count idx body acc)
            (fun acc' n => I (j + count)%nat acc' n).
Proof.
  intros Hbody count.
  induction count as [| c IH]; intros j idx acc; cbn [forRange].
  - apply ensures_ret. intros n HI. rewrite Nat.add_0_r. exact HI.
  - eapply ensures_bind; [apply Hbody |].
    intros acc'. eapply ensures_weaken; [apply IH |].
    intros a n HI. cbn beta in HI.
    replace (j + S c)%nat with (S j + c)%nat by lia. exact HI.
Qed.

End Ensures.

Section DecodedSockets.

Lemma length_string_of_list_byte (bs : list byte) :
  String.length (string_of_list_byte bs) = List.length bs.
Proof.
  rewrite <- length_list_byte_of_string, list_byte_of_string_of_list_byte.
  reflexivity.
Qed.

Lemma socketType_le7 (f : byte) : u8 (Unpack.socketType f) <= 7.
Proof.
  destruct (flags_layout f) as (_ & _ & _ & H). rewrite H.
  pose proof (Z.mod_pos_bound (u8 f / 2 ^ 3) (2 ^ 3) ltac:(lia)).
  change (2 ^ 3) with 8 in *. lia.
Qed.

Lemma ensures_socketTail (P : Node -> Prop) (sv : bool) (s0 : Socket) :
  u8 (sType s0) <= 7 -> ConnectedNode s0 = x00 -> ConnectedSocket s0 = x00 ->
  Value s0 = EmptyString ->
  ensures P (socketTail sv s0) (fun s n => P n /\ wfSocket s).
Proof.
  intros Ht Hcn Hcs Hv. unfold socketTail.
  destruct (Byte.eqb (sType s0) OutgoingNamed) eqn:Eo; cbn [negb].
  - apply ensures_ret. intros n HP. split; [exact HP |].
    split; [exact Ht |]. rewrite Eo. auto.
  - destruct (Connected s0) eqn:Ec.
    + eapply ensures_bind; [apply ensures_readByte | intros cn].
      eapply ensures_bind; [apply ensures_readByte | intros cs].
      apply ensures_ret. intros n HP. split; [exact HP |].
      split; [exact Ht |]. cbn. rewrite Eo, Ec. exact Hv.
    + destruct (Byte.eqb (sType s0) IncomingSwitch) eqn:Es; cbn [negb].
      * apply ensures_ret. intros n HP. split; [exact HP |].
        split; [exact Ht |]. cbn. rewrite Eo, Ec, Es.
        repeat split; try assumption. destruct sv; auto.
      * eapply ensures_bind; [apply ensures_readUint32 | intros z].
        eapply ensures_bind; [apply ensures_read | intros value].
        apply ensures_ret. intros n [[HP Hz] Hlen]. split; [exact HP |].
        split; [exact Ht |]. cbn. rewrite Eo, Ec, Es.
        repeat split; try assumption.
        rewrite length_string_of_list_byte, Hlen. lia.
Qed.

Lemma ensures_parseSocket (P : Node -> Prop) (i : Instance) :
  ensures P (parseSocket i)
          (fun i' n => P n /\ exists s, wfSocket s /\ i' = appendSocket s i).
Proof.
  unfold parseSocket.
  eapply ensures_bind; [apply ensures_readByte | intros f]. cbv zeta.
  eapply ensures_bind; [apply ensures_readByte | intros vt].
  eapply ensures_bind; [apply ensures_readByte | intros ps].
  eapply ensures_bind.
  - apply ensures_socketTail; try reflexivity. apply socketType_le7.
  - intros s. apply ensures_ret. intros n [HP Hs]. split; [exact HP |].
    exists s. auto.
Qed.

End DecodedSockets.

Section DecodedDocument.

Lemma window4 (w : list byte) :
  List.length w = 4%nat -> exists b0 b1 b2 b3, w = [b0; b1; b2; b3].
Proof.
  destruct w as [| b0 [| b1 [| b2 [| b3 [| b4 w]]]]]; try discriminate.
  intros _. eauto.
Qed.

Lemma window5 (w : list byte) :
  List.length w = 5%nat -> exists b0 b1 b2 b3 b4, w = [b0; b1; b2; b3; b4].
Proof.
  destruct w as [| b0 [| b1 [| b2 [| b3 [| b4 [| b5 w]]]]]]; try discriminate.
  intros _. eauto 6.
Qed.

Lemma biased_range (v : Z) :
  0 <= v <= 2 ^ 10 - 1 -> wfCoordinate (v - Layout.bias).
Proof.
  unfold wfCoordinate, Layout.bias. change (2 ^ 10) with 1024. lia.
Qed.

(** Every instance window unpacks to values the format can hold. *)
Lemma instance_window_wf (w : list byte) :
  List.length w = 4%nat ->
  wfPosition (mkPosition (Unpack.field0 w) (Unpack.field1 w))
  /\ 0 <= Unpack.instNameLen w <= 63 /\ 0 <= Unpack.instSockCount w <= 63.
Proof.
  intros Hw. destruct (window4 w Hw) as (b0 & b1 & b2 & b3 & ->).
  rewrite field0_bits4, field1_bits4, instNameLen_bits4,
    instSockCount_bits4.
  pose proof (bits_range [b0; b1; b2; b3] 20 6 ltac:(lia)) as Hn.
  pose proof (bits_range [b0; b1; b2; b3] 26 6 ltac:(lia)) as Hc.
  change (2 ^ 6) with 64 in Hn, Hc.
  split; [split; apply biased_range, bits_range; lia | lia].
Qed.

(** Every root window unpacks to two positions the format can hold. *)
Lemma root_window_wf (pos : list byte) :
  List.length pos = 5%nat ->
  wfPosition (mkPosition (Unpack.field0 pos) (Unpack.field1 pos))
  /\ wfPosition (mkPosition (Unpack.field2 pos) (Unpack.field3 pos)).
Proof.
  intros Hw. destruct (window5 pos Hw) as (b0 & b1 & b2 & b3 & b4 & ->).
  rewrite field0_bits5, field1_bits5, field2_bits5, field3_bits5.
  split; split; apply biased_range, bits_range; lia.
Qed.

Lemma ensures_parseInstance (P : Node -> Prop) (ii : Z) :
  ensures P (parseInstance ii)
          (fun _ n => exists n0 i,
               P n0 /\ wfInstance i /\ n = appendInstance i n0).
Proof.
  unfold parseInstance.
  eapply ensures_bind; [apply ensures_setCtx | intros ?].
  eapply ensures_bind; [apply ensures_readByte | intros key].
  eapply ensures_bind; [apply ensures_readByte | intros type].
  eapply ensures_bind; [apply ensures_read | intros w]. cbv zeta.
  eapply ensures_bind; [apply ensures_read | intros name].
  eapply ensures_bind.
  - eapply ensures_pre;
      [| apply (ensures_forRange
                  (fun j acc n =>
                     (P n /\ List.length w = 4%nat
                      /\ List.length name
                         = Z.to_nat (Unpack.instNameLen w))
                     /\ exists ss,
                         List.length ss = j /\ Forall wfSocket ss
                         /\ acc = mkInstance
                                    key type (string_of_list_byte name)
                                    (mkPosition (Unpack.field0 w)
                                                (Unpack.field1 w)) ss))
           with (j := 0%nat)].
    + intros n [[HP Hw] Hname]. split; [auto |]. exists []. auto.
    + intros j idx acc.
      eapply ensures_bind; [apply ensures_setCtx | intros ?].
      eapply ensures_weaken; [apply ensures_parseSocket |].
      intros acc' n (((HP & Hw) & ss & Hlen & Hss & Hacc) & s & Hs & Hacc').
      subst acc' acc.
      split; [auto |]. exists (ss ++ [s]).
      rewrite length_app, Forall_app. cbn.
      repeat split; auto; lia.
  - intros i.
    eapply ensures_weaken; [apply ensures_modifyNode |].
    intros ? n (n0 & ((HP & Hw & Hname) & ss & Hlen & Hss & Hi) & Hn).
    subst i n. exists n0. eexists. split; [exact HP |]. split; [| reflexivity].
    destruct (instance_window_wf w Hw) as (Hpos & Hn & Hc).
    unfold wfInstance. cbn [Name Sockets iPosition].
    rewrite length_string_of_list_byte, Hname, Hlen.
    repeat split; try assumption; try apply Hpos; cbn; lia.
Qed.

(** Splits a conjunction without unfolding its parts. *)
Ltac conjs := repeat match goal with |- _ /\ _ => split end.

Lemma to_nat_u8_le (b : byte) : (Z.to_nat (u8 b) <= 255)%nat.
Proof. pose proof (u8_range b). lia. Qed.

Lemma ensures_parseInstances (P : Node -> Prop) :
  ensures P parseInstances
          (fun _ n => exists n0 insts,
               P n0 /\ (List.length insts <= 255)%nat
               /\ Forall wfInstance insts
               /\ n = fold_left (fun n i => appendInstance i n) insts n0).
Proof.
  unfold parseInstances.
  eapply ensures_bind; [apply ensures_setCtx | intros ?].
  eapply ensures_bind; [apply ensures_readByte | intros count].
  eapply ensures_weaken.
  - eapply ensures_pre;
      [| apply (ensures_forRange
                  (fun j (_ : unit) n =>
                     exists n0 insts,
                       P n0 /\ List.length insts = j
                       /\ Forall wfInstance insts
                       /\ n = fold_left (fun n i => appendInstance i n)
                                        insts n0))
           with (j := 0%nat)].
    + intros n HP. exists n, []. auto.
    + intros j idx acc.
      eapply ensures_weaken; [apply ensures_parseInstance |].
      intros ? n (n1 & i & (n0 & insts & HP & Hlen & Hwf & Hn1) & Hi & Hn).
      subst n n1. exists n0, (insts ++ [i]).
      rewrite length_app, Forall_app, fold_left_app. cbn.
      repeat split; auto; lia.
  - intros ? n (n0 & insts & HP & Hlen & Hwf & Hn).
    exists n0, insts. pose proof (to_nat_u8_le count).
    repeat split; auto; lia.
Qed.

Lemma ensures_parseTable (P : Node -> Prop) (count : byte)
      (append : string -> Node -> Node) :
  ensures P (parseTable count append)
          (fun _ n => exists n0 items,
               P n0 /\ wfTable items
               /\ n = fold_left (fun n s => append s n) items n0).
Proof.
  unfold parseTable.
  eapply ensures_weaken.
  - eapply ensures_pre;
      [| apply (ensures_forRange
                  (fun j (_ : unit) n =>
                     exists n0 items,
                       P n0 /\ List.length items = j
                       /\ Forall (fun s => (String.length s <= 255)%nat)
                                 items
                       /\ n = fold_left (fun n s => append s n) items n0))
           with (j := 0%nat)].
    + intros n HP. exists n, []. auto.
    + intros j idx acc.
      eapply ensures_bind; [apply ensures_readByte | intros l].
      eapply ensures_bind; [apply ensures_read | intros item].
      eapply ensures_weaken; [apply ensures_modifyNode |].
      intros ? n (n1 & ((n0 & items & HP & Hlen & Hwf & Hn1) & Hitem) & Hn).
      subst n n1. exists n0, (items ++ [string_of_list_byte item]).
      rewrite length_app, Forall_app, fold_left_app. cbn.
      repeat split; auto; try lia.
      constructor; [| constructor].
      rewrite length_string_of_list_byte, Hitem. apply to_nat_u8_le.
  - intros ? n (n0 & items & HP & Hlen & Hwf & Hn).
    exists n0, items. pose proof (to_nat_u8_le count).
    unfold wfTable. repeat split; auto; lia.
Qed.

Lemma ensures_parseNodesAndTypes (P : Node -> Prop) :
  ensures P parseNodesAndTypes
          (fun _ n => exists n0 nodes types,
               P n0 /\ wfTable nodes /\ wfTable types
               /\ n = fold_left (fun n s => appendType s n) types
                        (fold_left (fun n s => appendNode s n) nodes n0)).
Proof.
  unfold parseNodesAndTypes.
  eapply ensures_bind; [apply ensures_setCtx | intros ?].
  eapply ensures_bind; [apply ensures_readByte | intros nodeCount].
  eapply ensures_bind; [apply ensures_parseTable | intros ?].
  eapply ensures_bind; [apply ensures_setCtx | intros ?].
  eapply ensures_bind; [apply ensures_readByte | intros typeCount].
  eapply ensures_weaken; [apply ensures_parseTable |].
  intros ? n (n1 & types & (n0 & nodes & HP & Hnodes & Hn1) & Htypes & Hn).
  subst n n1. exists n0, nodes, types. auto.
Qed.

Lemma ensures_parseRoots (P : Node -> Prop) :
  ensures P parseRoots
          (fun _ n => exists n0 pin pout conns,
               P n0 /\ wfPosition pin /\ wfPosition pout
               /\ (List.length conns <= 255)%nat
               /\ n = fold_left (fun n c => appendConnection c n) conns
                        (withRootPositions pin pout n0)).
Proof.
  unfold parseRoots.
  eapply ensures_bind; [apply ensures_setCtx | intros ?].
  eapply ensures_bind; [apply ensures_read | intros pos].
  eapply ensures_bind; [apply ensures_modifyNode | intros ?].
  eapply ensures_bind; [apply ensures_setCtx | intros ?].
  eapply ensures_bind; [apply ensures_readByte | intros count].
  eapply ensures_weaken.
  - eapply ensures_pre;
      [| apply (ensures_forRange
                  (fun j (_ : unit) n =>
                     exists n0 pin pout conns,
                       P n0 /\ wfPosition pin /\ wfPosition pout
                       /\ List.length conns = j
                       /\ n = fold_left (fun n c => appendConnection c n)
                                        conns
                                        (withRootPositions pin pout n0)))
           with (j := 0%nat)].
    + intros n (n0 & [HP Hpos] & Hn).
      destruct (root_window_wf pos Hpos) as [Hin Hout].
      exists n0. do 2 eexists. exists []. cbn [fold_left].
      conjs; [exact HP | exact Hin | exact Hout | reflexivity | exact Hn].
    + intros j idx acc.
      eapply ensures_bind; [apply ensures_setCtx | intros ?].
      eapply ensures_bind; [apply ensures_read | intros pair].
      eapply ensures_weaken; [apply ensures_modifyNode |].
      intros ? n (n1 & ((n0 & pin & pout & conns & HP & Hin & Hout & Hlen
                         & Hn1) & Hpair) & Hn).
      subst n n1. exists n0, pin, pout. eexists (conns ++ [_]).
      rewrite length_app, fold_left_app. cbn.
      conjs; auto; lia.
  - intros ? n (n0 & pin & pout & conns & HP & Hin & Hout & Hlen & Hn).
    exists n0, pin, pout, conns. pose proof (to_nat_u8_le count).
    conjs; auto; lia.
Qed.

Lemma ensures_parseHeader (P : Node -> Prop) :
  ensures P parseHeader
          (fun _ n => exists n0 v,
               P n0 /\ u8 v <= LATEST_VERSION /\ n = withVersion v n0).
Proof.
  unfold parseHeader.
  eapply ensures_bind; [apply ensures_setCtx | intros ?].
  eapply ensures_bind; [apply ensures_read | intros magic].
  destruct (negb (string_of_list_byte magic =? MAGIC_NUMBER)%string);
    [apply ensures_fail |].
  eapply ensures_bind; [apply ensures_setCtx | intros ?].
  eapply ensures_bind; [apply ensures_readByte | intros v].
  eapply ensures_bind; [apply ensures_modifyNode | intros ?].
  destruct (u8 v >? LATEST_VERSION) eqn:Ev; [apply ensures_fail |].
  apply ensures_ret. intros n (n0 & [HP _] & Hn).
  exists n0, v. repeat split; auto.
  rewrite Z.gtb_ltb in Ev. apply Z.ltb_ge in Ev. exact Ev.
Qed.

(** Whatever [parse] returns is a document the format can hold. *)
Lemma ensures_parse :
  ensures (fun _ => True) parse (fun a n => wfNode a).
Proof.
  unfold parse.
  eapply ensures_bind; [apply ensures_modifyNode | intros ?].
  eapply ensures_bind; [apply ensures_parseHeader | intros ?].
  eapply ensures_bind; [apply ensures_parseRoots | intros ?].
  eapply ensures_bind; [apply ensures_parseNodesAndTypes | intros ?].
  eapply ensures_bind; [apply ensures_parseInstances | intros ?].
  eapply ensures_weaken; [apply ensures_getNode |].
  intros doc n [H Hdoc]. subst doc.
  destruct H as (n4 & insts & H & Hcount & Hinsts & ->).
  destruct H as (n3 & nodes & types & H & Hnodes & Htypes & ->).
  destruct H as (n2 & pin & pout & conns & H & Hin & Hout & Hconns & ->).
  destruct H as (n1 & v & (n0 & _ & ->) & Hv & ->).
  rewrite fold_appendInstance, fold_appendType, fold_appendNode,
    fold_appendConnection.
  unfold wfNode.
  cbn [Version InputRootPosition OutputRoot Nodes Types Instances oPosition
       Connections withRootPositions withVersion zeroNode app].
  conjs; assumption.
Qed.

End DecodedDocument.

(** ** Bytes after the document *)

#[export] Hint Resolve disciplined_readByte disciplined_readUint32
  disciplined_readUint32_then disciplined_parseTable disciplined_socketTail
  disciplined_parseSocket disciplined_parseInstance disciplined_parseHeader
  disciplined_parseRoots disciplined_parseNodesAndTypes
  disciplined_parseInstances : cursor.

Section Stability.

Lemma remaining_extends (extra : list byte) (p q : parser) :
  inBounds p -> extends extra p q -> remaining q = remaining p ++ extra.
Proof.
  intros Hp (Hbuf & Hi & _ & _). unfold remaining, inBounds in *.
  rewrite Hbuf, Hi, skipn_app.
  replace (Z.to_nat (p_i p) - List.length (p_buf p))%nat with 0%nat by lia.
  reflexivity.
Qed.

Lemma stable_ret {A} (a : A) : stable (ret a).
Proof. intros extra p q _ Hq. cbn. exists q. auto. Qed.

Lemma stable_bind {A B} (m : M A) (k : A -> M B) :
  disciplined m -> stable m -> (forall a, stable (k a)) ->
  stable (bind m k).
Proof.
  intros Hd Hm Hk extra p q Hp Hq.
  specialize (Hm extra p q Hp Hq). specialize (Hd p Hp). cbv zeta in Hd.
  unfold bind at 1.
  destruct (m p) as [p1 [e | a]]; cbn [fst snd] in Hd.
  - destruct Hm as [Hs | (q1 & Rq & Hq1)]; [left; exact Hs | right].
    exists q1. rewrite (bind_err _ _ _ _ _ Rq). auto.
  - destruct Hm as (q1 & Rq & Hq1).
    destruct Hd as (_ & _ & Hp1 & _).
    specialize (Hk a extra p1 q1 Hp1 Hq1).
    rewrite (bind_ok _ _ _ _ _ Rq). exact Hk.
Qed.

Lemma stable_if {A} (c : bool) (m1 m2 : M A) :
  stable m1 -> stable m2 -> stable (if c then m1 else m2).
Proof. destruct c; auto. Qed.

Lemma stable_setCtx (c : string) : stable (setCtx c).
Proof.
  intros extra p q _ (Hbuf & Hi & Hctx & Hn). cbn.
  exists (set_ctx q c). split; [reflexivity |].
  unfold extends. cbn. auto.
Qed.

Lemma stable_modifyNode (g : Node -> Node) : stable (modifyNode g).
Proof.
  intros extra p q _ (Hbuf & Hi & Hctx & Hn). cbn.
  exists (set_n q (g (p_n q))). split; [reflexivity |].
  unfold extends. cbn. rewrite Hn. auto.
Qed.

Lemma stable_getNode : stable getNode.
Proof.
  intros extra p q _ (Hbuf & Hi & Hctx & Hn). cbn.
  exists q. unfold getNode. rewrite Hn. split; [reflexivity |].
  unfold extends. auto.
Qed.

Lemma stable_fail {A} (msg : string) : stable (@fail A msg).
Proof.
  intros extra p q _ (Hbuf & Hi & Hctx & Hn). cbn. right.
  exists q. unfold fail, error. rewrite Hi, Hctx. split; [reflexivity |].
  unfold extends. auto.
Qed.

Lemma stable_read (size : Z) : stable (read size).
Proof.
  intros extra p q Hp Hq.
  pose proof (remaining_extends extra p q Hp Hq) as Hrem.
  destruct Hq as (Hbuf & Hi & Hctx & Hn).
  unfold read. rewrite Hrem, length_app.
  destruct (Z.of_nat (List.length (remaining p)) <? size) eqn:E.
  - left. reflexivity.
  - apply Z.ltb_ge in E.
    replace (Z.of_nat (List.length (remaining p) + List.length extra)
             <? size) with false by (symmetry; apply Z.ltb_ge; lia).
    rewrite firstn_app.
    replace (Z.to_nat size - List.length (remaining p))%nat with 0%nat
      by lia.
    cbn [firstn]. rewrite app_nil_r, Hi.
    eexists. split; [reflexivity |].
    unfold extends. cbn. auto.
Qed.

Lemma stable_forRange {A} (body : Z -> A -> M A) :
  (forall idx acc, disciplined (body idx acc)) ->
  (forall idx acc, stable (body idx acc)) ->
  forall count idx acc, stable (forRange count idx body acc).
Proof.
  intros Hd Hs count.
  induction count as [| c IH]; intros idx acc; cbn [forRange].
  - apply stable_ret.
  - apply stable_bind; [apply Hd | apply Hs | intros a; apply IH].
Qed.

End Stability.

#[export] Hint Resolve stable_ret stable_bind stable_if stable_setCtx
  stable_modifyNode stable_getNode stable_fail stable_read stable_forRange
  : cursor.

Section StablePhases.

Lemma stable_readByte : stable readByte.
Proof. unfold readByte. auto with cursor. Qed.

Lemma stable_readUint32_then {B} (k : Z -> M B) :
  (forall v, 0 <= v -> stable (k v)) -> stable (bind readUint32 k).
Proof.
  intros Hk extra p q Hp Hq.
  assert (Heq : forall r, bind readUint32 k r
                          = bind (read 4) (fun bs => k (Uint32 bs)) r).
  { intros r. unfold readUint32, bind, ret.
    destruct (read 4 r) as [r' [e | bs]]; reflexivity. }
  rewrite (Heq p).
  assert (Hs : stable (bind (read 4) (fun bs => k (Uint32 bs))))
    by auto with cursor.
  specialize (Hs extra p q Hp Hq).
  destruct (bind (read 4) (fun bs => k (Uint32 bs)) p) as [p' [e | a]];
    rewrite (Heq q); exact Hs.
Qed.

Hint Resolve stable_readByte stable_readUint32_then : cursor.

Lemma stable_parseHeader : stable parseHeader.
Proof. unfold parseHeader. auto 12 with cursor. Qed.

Lemma stable_parseRoots : stable parseRoots.
Proof. unfold parseRoots. auto 12 with cursor. Qed.

Lemma stable_parseTable (count : byte) (f : string -> Node -> Node) :
  stable (parseTable count f).
Proof. unfold parseTable. auto 12 with cursor. Qed.

Hint Resolve stable_parseTable : cursor.

Lemma stable_parseNodesAndTypes : stable parseNodesAndTypes.
Proof. unfold parseNodesAndTypes. auto 12 with cursor. Qed.

Lemma stable_socketTail (sv : bool) (s : Socket) : stable (socketTail sv s).
Proof. unfold socketTail. auto 12 with cursor. Qed.

Hint Resolve stable_socketTail : cursor.

Lemma stable_parseSocket (i : Instance) : stable (parseSocket i).
Proof. unfold parseSocket. auto 12 with cursor. Qed.

Hint Resolve stable_parseSocket : cursor.

Lemma stable_parseInstance (ii : Z) : stable (parseInstance ii).
Proof. unfold parseInstance. auto 14 with cursor. Qed.

Hint Resolve stable_parseInstance : cursor.

Lemma stable_parseInstances : stable parseInstances.
Proof. unfold parseInstances. auto 12 with cursor. Qed.

Hint Resolve stable_parseHeader stable_parseRoots stable_parseNodesAndTypes
  stable_parseInstances : cursor.

Lemma stable_parse : stable parse.
Proof. unfold parse. auto 14 with cursor. Qed.

End StablePhases.

(** ** How much a successful decode consumes *)

Section Consumption.

Lemma consumes_ret {A} (a : A) : consumes 0 (ret a).
Proof. intros p p' a' E. inversion E; subst. lia. Qed.

Lemma consumes_bind {A B} (k1 k2 : Z) (m : M A) (k : A -> M B) :
  consumes k1 m -> (forall a, consumes k2 (k a)) ->
  consumes (k1 + k2) (bind m k).
Proof.
  intros Hm Hk p p' b E. unfold bind in E.
  destruct (m p) as [p1 [e | a]] eqn:Em; [discriminate |].
  pose proof (Hm p p1 a Em). pose proof (Hk a p1 p' b E). lia.
Qed.

Lemma consumes_less {A} (k k' : Z) (m : M A) :
  k' <= k -> consumes k m -> consumes k' m.
Proof. intros Hle Hm p p' a E. pose proof (Hm p p' a E). lia. Qed.

Lemma consumes_fail {A} (k : Z) (msg : string) : consumes k (@fail A msg).
Proof. intros p p' a E. discriminate E. Qed.

Lemma consumes_if {A} (k : Z) (c : bool) (m1 m2 : M A) :
  consumes k m1 -> consumes k m2 -> consumes k (if c then m1 else m2).
Proof. destruct c; auto. Qed.

Lemma consumes_setCtx (c : string) : consumes 0 (setCtx c).
Proof. intros p p' a E. inversion E; subst. cbn. lia. Qed.

Lemma consumes_modifyNode (g : Node -> Node) : consumes 0 (modifyNode g).
Proof. intros p p' a E. inversion E; subst. cbn. lia. Qed.

Lemma consumes_getNode : consumes 0 getNode.
Proof. intros p p' a E. inversion E; subst. lia. Qed.

Lemma consumes_read (size : Z) : consumes size (read size).
Proof.
  intros p p' bs E. unfold read in E.
  destruct (Z.of_nat (List.length (remaining p)) <? size); [discriminate |].
  inversion E; subst. cbn. lia.
Qed.

Lemma consumes_readByte : consumes 1 readByte.
Proof.
  unfold readByte. change 1 with (1 + 0).
  apply consumes_bind; [apply consumes_read | intros bs; apply consumes_ret].
Qed.

Lemma consumes_forRange {A} (body : Z -> A -> M A) :
  (forall idx acc, consumes 0 (body idx acc)) ->
  forall count idx acc, consumes 0 (forRange count idx body acc).
Proof.
  intros Hbody count.
  induction count as [| c IH]; intros idx acc; cbn [forRange].
  - apply consumes_ret.
  - change 0 with (0 + 0).
    apply consumes_bind; [apply Hbody | intros a; apply IH].
Qed.

(** Drops the bytes a sequence of reads is known to consume, leaving the
    rest to be shown to consume nothing or more. *)
Ltac consume :=
  repeat first
    [ apply consumes_ret | apply consumes_fail | apply consumes_getNode
    | apply (consumes_less 0); [lia | apply consumes_ret]
    | apply consumes_if
    | match goal with
      | |- consumes ?k (bind (setCtx _) _) =>
          apply (consumes_less (0 + k) k); [lia |];
          apply consumes_bind; [apply consumes_setCtx | intros ?]
      | |- consumes ?k (bind (modifyNode _) _) =>
          apply (consumes_less (0 + k) k); [lia |];
          apply consumes_bind; [apply consumes_modifyNode | intros ?]
      | |- consumes ?k (bind readByte _) =>
          apply (consumes_less (1 + (k - 1)) k); [lia |];
          apply consumes_bind; [apply consumes_readByte | intros ?]
      end ].

Lemma consumes_parseHeader : consumes 12 parseHeader.
Proof.
  unfold parseHeader. consume.
  apply (consumes_less (11 + 1) _); [lia |].
  apply consumes_bind; [apply consumes_read | intros magic].
  consume.
Qed.

Lemma consumes_socketTail (sv : bool) (s : Socket) :
  consumes 0 (socketTail sv s).
Proof.
  unfold socketTail. consume.
  unfold readUint32.
    intros p p' s' E. unfold bind, ret in E.
    destruct (read 4 p) as [p1 [e | bs]] eqn:E1; [discriminate |].
    destruct (read (Uint32 bs) p1) as [p2 [e | v]] eqn:E2; [discriminate |].
    inversion E; subst.
    pose proof (consumes_read _ _ _ _ E1).
    pose proof (consumes_read _ _ _ _ E2).
    pose proof (Uint32_nonneg bs). lia.
Qed.

Lemma consumes_parseSocket (i : Instance) : consumes 3 (parseSocket i).
Proof.
  unfold parseSocket. consume. cbv zeta. consume.
  apply (consumes_less (0 + 0) _); [lia |].
  apply consumes_bind; [apply consumes_socketTail | intros s].
  apply consumes_ret.
Qed.

Lemma consumes_parseInstance (ii : Z) : consumes 6 (parseInstance ii).
Proof.
  unfold parseInstance. consume.
  apply (consumes_less (4 + 0) _); [lia |].
  apply consumes_bind; [apply consumes_read | intros w]. cbv zeta.
  pose proof (instNameLen_nonneg w).
  apply (consumes_less (Unpack.instNameLen w + 0) _); [lia |].
  apply consumes_bind; [apply consumes_read | intros name].
  change 0 with (0 + 0).
  apply consumes_bind; [| intros i; apply consumes_modifyNode].
  apply consumes_forRange. intros idx acc. consume.
  apply (consumes_less 3); [lia | apply consumes_parseSocket].
Qed.

Lemma consumes_parseInstances : consumes 1 parseInstances.
Proof.
  unfold parseInstances. consume.
  apply consumes_forRange. intros idx acc.
  apply (consumes_less 6); [lia | apply consumes_parseInstance].
Qed.

Lemma consumes_parseTable (count : byte) (f : string -> Node -> Node) :
  consumes 0 (parseTable count f).
Proof.
  unfold parseTable. apply consumes_forRange. intros idx acc.
  apply (consumes_less (1 + 0) _); [lia |].
  apply consumes_bind; [apply consumes_readByte | intros l].
  pose proof (u8_range l).
  apply (consumes_less (u8 l + 0) _); [lia |].
  apply consumes_bind; [apply consumes_read | intros item].
  apply consumes_modifyNode.
Qed.

Lemma consumes_parseNodesAndTypes : consumes 2 parseNodesAndTypes.
Proof.
  unfold parseNodesAndTypes. consume.
  apply (consumes_less (0 + 1) _); [lia |].
  apply consumes_bind; [apply consumes_parseTable | intros ?].
  consume. apply consumes_parseTable.
Qed.

Lemma consumes_parseRoots : consumes 6 parseRoots.
Proof.
  unfold parseRoots. consume.
  apply (consumes_less (5 + 1) _); [lia |].
  apply consumes_bind; [apply consumes_read | intros pos].
  consume. apply consumes_forRange. intros idx acc. consume.
  apply (consumes_less (2 + 0) _); [lia |].
  apply consumes_bind; [apply consumes_read | intros pair].
  apply consumes_modifyNode.
Qed.

Lemma consumes_parse : consumes 21 parse.
Proof.
  unfold parse. consume.
  apply (consumes_less (12 + 9) _); [lia |].
  apply consumes_bind; [apply consumes_parseHeader | intros ?].
  apply (consumes_less (6 + 3) _); [lia |].
  apply consumes_bind; [apply consumes_parseRoots | intros ?].
  apply (consumes_less (2 + 1) _); [lia |].
  apply consumes_bind; [apply consumes_parseNodesAndTypes | intros ?].
  apply (consumes_less (1 + 0) _); [lia |].
  apply consumes_bind; [apply consumes_parseInstances | intros ?].
  apply consumes_getNode.
Qed.

End Consumption.

(** ** The decoder and the format *)

Section RoundTrip.

Lemma sampleDocument_wf : wfNode sampleDocument.
Proof.
  unfold wfNode, wfTable, wfInstance, wfPosition, wfCoordinate,
    sampleDocument.
  cbn [Version InputRootPosition OutputRoot oPosition Connections Nodes
       Types Instances Name Sockets iPosition X Y List.length String.length].
  repeat match goal with
         | |- _ /\ _ => split
         | |- Forall _ _ => constructor
         | |- wfSocket _ => unfold wfSocket; cbn
         | |- (_ <= _)%nat => cbn; lia
         | |- _ <= _ => unfold LATEST_VERSION; cbn; lia
         | |- _ < _ => cbn; lia
         | |- _ = _ => reflexivity
         | |- _ \/ _ => left; reflexivity
         end.
Qed.

Lemma parse_newParser_layout (n : Node) (extra : list byte) :
  wfNode n ->
  exists p', parse (newParser (Format.document n ++ extra)) = (p', inr n)
             /\ p_i p' = Z.of_nat (List.length (Format.document n)).
Proof.
  intros Hwf.
  destruct (parse_layout n Hwf zeroNode
              (newParser (Format.document n ++ extra)) extra
              ltac:(cbn; lia) eq_refl eq_refl)
    as (p' & R & _ & Hi & _).
  exists p'. split; [exact R | exact Hi].
Qed.

Lemma ParseFromSlice_Some (buf : list byte) (n : Node) :
  ParseFromSlice buf = (Some n, None) <->
  exists p', parse (newParser buf) = (p', inr n).
Proof.
  unfold ParseFromSlice.
  destruct (parse (newParser buf)) as [p' [e | n']]; split.
  - discriminate.
  - intros [q E]. discriminate.
  - intros E. inversion E; subst. eauto.
  - intros [q E]. inversion E; subst. reflexivity.
Qed.

Lemma ParseFromSlice_error (buf : list byte) (e : ParseError) :
  ParseFromSlice buf = (None, Some e) <->
  exists p', parse (newParser buf) = (p', inl e).
Proof.
  unfold ParseFromSlice.
  destruct (parse (newParser buf)) as [p' [e' | n']]; split.
  - intros E. inversion E; subst. eauto.
  - intros [q E]. inversion E; subst. reflexivity.
  - discriminate.
  - intros [q E]. discriminate.
Qed.

Lemma newParser_inBounds (buf : list byte) : inBounds (newParser buf).
Proof. unfold inBounds. cbn. lia. Qed.

Lemma newParser_extends (buf extra : list byte) :
  extends extra (newParser buf) (newParser (buf ++ extra)).
Proof. unfold extends. cbn. auto. Qed.

End RoundTrip.

(** X1: decoding inverts the layout of the format.  For every document the
    format can hold, the bytes of its layout, followed by any further
    bytes, decode to exactly that document, and the cursor stops at the end
    of the layout. *)
Theorem X1_layout_decodes (n : Node) (extra : list byte) :
  wfNode n ->
  ParseFromSlice (Format.document n ++ extra) = (Some n, None)
  /\ p_i (fst (parse (newParser (Format.document n ++ extra))))
     = Z.of_nat (List.length (Format.document n)).
Proof.
  intros Hwf.
  destruct (parse_newParser_layout n extra Hwf) as (p' & R & Hi).
  split.
  - apply ParseFromSlice_Some. exists p'. exact R.
  - rewrite R. exact Hi.
Qed.

(** The sample document, followed by two stray bytes. *)
Lemma X1_sample :
  ParseFromSlice (Format.document sampleDocument ++ [xff; x00])
  = (Some sampleDocument, None)
  /\ p_i (fst (parse (newParser
                        (Format.document sampleDocument ++ [xff; x00]))))
     = Z.of_nat (List.length (Format.document sampleDocument)).
Proof.
  exact (X1_layout_decodes sampleDocument [xff; x00] sampleDocument_wf).
Defined.

(** X2: every document the decoder returns is one the format can hold:
    version at most 1, coordinates from -500 to 523, at most 255
    connections, table entries and instances, names of at most 63 bytes and
    at most 63 sockets per instance, and sockets that hold a value only when
    they are incoming and not connected. *)
Theorem X2_decoded_wellformed (buf : list byte) (n : Node) :
  ParseFromSlice buf = (Some n, None) -> wfNode n.
Proof.
  intros H. apply ParseFromSlice_Some in H. destruct H as [p' R].
  exact (ensures_parse (newParser buf) p' n I R).
Qed.

Lemma X2_minimal :
  wfNode (mkNode x01 (mkPosition (-500) (-500))
                 (mkOutputRoot (mkPosition (-500) (-500)) []) [] [] []).
Proof.
  exact (X2_decoded_wellformed minimalDocument _ eq_refl).
Defined.

(** X3: laying out a decoded document and decoding it again gives the same
    document. *)
Theorem X3_decoded_reencodes (buf : list byte) (n : Node) :
  ParseFromSlice buf = (Some n, None) ->
  ParseFromSlice (Format.document n) = (Some n, None).
Proof.
  intros H. apply ParseFromSlice_Some in H. destruct H as [p' R].
  pose proof (ensures_parse (newParser buf) p' n I R) as Hwf.
  destruct (parse_newParser_layout n [] Hwf) as (q & Rq & _).
  rewrite app_nil_r in Rq.
  apply ParseFromSlice_Some. exists q. exact Rq.
Qed.

(** The minimal document with a stray byte: its layout is the minimal
    document itself. *)
Lemma X3_minimal :
  ParseFromSlice
    (Format.document
       (mkNode x01 (mkPosition (-500) (-500))
               (mkOutputRoot (mkPosition (-500) (-500)) []) [] [] []))
  = (Some (mkNode x01 (mkPosition (-500) (-500))
                  (mkOutputRoot (mkPosition (-500) (-500)) []) [] [] []),
     None).
Proof.
  exact (X3_decoded_reencodes (minimalDocument ++ [x2a]) _ eq_refl).
Defined.

(** X4: bytes after the document are ignored.  If a buffer decodes to a
    document, so does every extension of it, to the same document; and an
    error other than a short read stays the same error however the buffer is
    extended. *)
Theorem X4_trailing_bytes (buf extra : list byte) :
  (forall n, ParseFromSlice buf = (Some n, None) ->
             ParseFromSlice (buf ++ extra) = (Some n, None))
  /\ (forall e, ParseFromSlice buf = (None, Some e) -> ~ shortRead e ->
                ParseFromSlice (buf ++ extra) = (None, Some e)).
Proof.
  pose proof (stable_parse extra (newParser buf) (newParser (buf ++ extra))
                (newParser_inBounds buf) (newParser_extends buf extra))
    as Hs.
  split.
  - intros n H. apply ParseFromSlice_Some in H. destruct H as [p' R].
    rewrite R in Hs. destruct Hs as (q' & Rq & _).
    apply ParseFromSlice_Some. exists q'. exact Rq.
  - intros e H Hshort. apply ParseFromSlice_error in H.
    destruct H as [p' R]. rewrite R in Hs.
    destruct Hs as [Hs | (q' & Rq & _)]; [contradiction |].
    apply ParseFromSlice_error. exists q'. exact Rq.
Qed.

Lemma X4_minimal_and_bad_magic :
  ParseFromSlice (minimalDocument ++ [x01; x02; x03])
  = (Some (mkNode x01 (mkPosition (-500) (-500))
                  (mkOutputRoot (mkPosition (-500) (-500)) []) [] [] []),
     None)
  /\ ParseFromSlice (repeat x00 12 ++ [x01; x02; x03])
     = (None,
        Some (mkParseError "parsing magic"
                           "invalid magic [0 0 0 0 0 0 0 0 0 0 0]" 11)).
Proof.
  split.
  - exact (proj1 (X4_trailing_bytes minimalDocument [x01; x02; x03])
                 _ eq_refl).
  - exact (proj2 (X4_trailing_bytes (repeat x00 12) [x01; x02; x03])
                 _ eq_refl ltac:(discriminate)).
Defined.

(** X5: a truncated document is never mistaken for another one.  Every
    proper prefix of the layout of a document fails to decode, with the
    short read error, at an offset inside the prefix. *)
Theorem X5_truncated_layout (n : Node) (k : nat) :
  wfNode n -> (k < List.length (Format.document n))%nat ->
  exists e : ParseError,
    ParseFromSlice (firstn k (Format.document n)) = (None, Some e)
    /\ shortRead e /\ 0 <= Index e <= Z.of_nat k.
Proof.
  intros Hwf Hk.
  set (doc := Format.document n) in *.
  set (pre := firstn k doc).
  assert (Hlen : List.length pre = k)
    by (unfold pre; rewrite length_firstn; lia).
  assert (Hdoc : pre ++ skipn k doc = doc) by apply firstn_skipn.
  destruct (parse_newParser_layout n [] Hwf) as (q & Rq & Hq).
  rewrite app_nil_r in Rq. fold doc in Rq, Hq. rewrite <- Hdoc in Rq.
  pose proof (stable_parse (skipn k doc) (newParser pre)
                (newParser (pre ++ skipn k doc))
                (newParser_inBounds pre) (newParser_extends pre _)) as Hs.
  pose proof (disciplined_parse (newParser pre) (newParser_inBounds pre))
    as Hd.
  cbv zeta in Hd.
  destruct (parse (newParser pre)) as [p' [e | n']] eqn:R;
    cbn [fst snd] in Hd; destruct Hd as (Hbuf & _ & Hb & Hr).
  - exists e.
    destruct Hs as [Hs | (q' & Rq' & _)];
      [| rewrite Rq in Rq'; discriminate].
    split; [apply ParseFromSlice_error; eauto |].
    split; [exact Hs |].
    destruct Hr as (_ & Hidx & _). unfold inBounds in Hb.
    rewrite Hbuf in Hb. cbn [p_buf newParser] in Hb. lia.
  - destruct Hs as (q' & Rq' & (_ & Hi & _)).
    rewrite Rq in Rq'. inversion Rq'; subst q' n'.
    unfold inBounds in Hb. rewrite Hbuf in Hb. cbn [p_buf newParser] in Hb.
    lia.
Qed.

(** The sample document cut after 40 bytes, inside its instance. *)
Lemma X5_sample_cut :
  exists e : ParseError,
    ParseFromSlice (firstn 40 (Format.document sampleDocument))
    = (None, Some e)
    /\ shortRead e /\ 0 <= Index e <= Z.of_nat 40.
Proof.
  exact (X5_truncated_layout sampleDocument 40 sampleDocument_wf
           ltac:(vm_compute; lia)).
Defined.

(** X6: a buffer too short to hold the magic is refused before anything is
    read: the error is the short read, while "parsing magic", at offset
    0. *)
Theorem X6_shorter_than_magic (buf : list byte) :
  (List.length buf < 11)%nat ->
  ParseFromSlice buf
  = (None,
     Some (mkParseError "parsing magic"
                        "internal read error (buffer too small)" 0)).
Proof.
  intros Hlen. apply ParseFromSlice_error.
  set (p0 := set_ctx (set_n (newParser buf) zeroNode) "parsing magic").
  exists p0. rewrite parse_start.
  apply bind_err. unfold parseHeader.
  rewrite (bind_ok _ _ _ p0 tt eq_refl).
  apply bind_err.
  exact (read_short p0 11 ltac:(cbn; lia)).
Qed.

Lemma X6_empty_and_ten :
  ParseFromSlice []
  = (None,
     Some (mkParseError "parsing magic"
                        "internal read error (buffer too small)" 0))
  /\ ParseFromSlice (list_byte_of_string "kronarknod")
     = (None,
        Some (mkParseError "parsing magic"
                           "internal read error (buffer too small)" 0)).
Proof.
  split.
  - exact (X6_shorter_than_magic [] ltac:(cbn; lia)).
  - exact (X6_shorter_than_magic (list_byte_of_string "kronarknod")
             ltac:(cbn; lia)).
Defined.

(** X7: no buffer shorter than 21 bytes decodes: a successful decode has
    read the magic, the version, the root window and the four counts. *)
Theorem X7_minimum_length (buf : list byte) (n : Node) :
  ParseFromSlice buf = (Some n, None) ->
  (21 <= List.length buf)%nat
  /\ 21 <= p_i (fst (parse (newParser buf))) <= Z.of_nat (List.length buf).
Proof.
  intros H. apply ParseFromSlice_Some in H. destruct H as [p' R].
  pose proof (consumes_parse _ _ _ R) as Hc. cbn [p_i newParser] in Hc.
  pose proof (disciplined_parse (newParser buf) (newParser_inBounds buf))
    as Hd.
  cbv zeta in Hd. rewrite R in Hd. cbn [fst snd] in Hd.
  destruct Hd as (Hbuf & _ & Hb & _).
  unfold inBounds in Hb. rewrite Hbuf in Hb. cbn [p_buf newParser] in Hb.
  rewrite R. cbn [fst]. lia.
Qed.

Lemma X7_minimal :
  (21 <= List.length minimalDocument)%nat
  /\ 21 <= p_i (fst (parse (newParser minimalDocument)))
     <= Z.of_nat (List.length minimalDocument).
Proof.
  exact (X7_minimum_length minimalDocument _ eq_refl).
Defined.

(** ** The phases one by one *)

Section PhaseLayouts.

Lemma length_connections (conns : list (byte * byte)) :
  List.length (flat_map Format.connection conns)
  = (2 * List.length conns)%nat.
Proof.
  induction conns as [| c conns IH]; [reflexivity |].
  cbn [flat_map Format.connection app List.length]. lia.
Qed.

End PhaseLayouts.

(** X8: the root parser on a root window, a count and that many pairs.  The
    two positions are stored, the pairs are appended to the connections of
    the output root in the order of the buffer, 6 + 2 * count bytes are
    consumed, and the rest of the node is untouched. *)
Theorem X8_parseRoots_connections (p : parser) (pin pout : Position)
        (conns : list (byte * byte)) (rest : list byte) :
  0 <= p_i p -> wfPosition pin -> wfPosition pout ->
  (List.length conns <= 255)%nat ->
  remaining p
  = Format.rootWindow pin pout
    ++ Format.len8 (List.length conns)
    :: flat_map Format.connection conns ++ rest ->
  exists p' : parser,
    parseRoots p = (p', inr tt)
    /\ p_i p' = p_i p + 6 + 2 * Z.of_nat (List.length conns)
    /\ remaining p' = rest
    /\ InputRootPosition (p_n p') = pin
    /\ oPosition (OutputRoot (p_n p')) = pout
    /\ Connections (OutputRoot (p_n p'))
       = Connections (OutputRoot (p_n p)) ++ conns
    /\ Version (p_n p') = Version (p_n p)
    /\ Nodes (p_n p') = Nodes (p_n p) /\ Types (p_n p') = Types (p_n p)
    /\ Instances (p_n p') = Instances (p_n p).
Proof.
  intros Hi Hin Hout Hlen Hrem.
  assert (Hrem' : remaining p
                  = (Format.rootWindow pin pout
                     ++ Format.len8 (List.length conns)
                     :: flat_map Format.connection conns) ++ rest)
    by (rewrite Hrem, <- app_assoc; reflexivity).
  destruct (parseRoots_layout (p_n p) pin pout conns Hin Hout Hlen
                              p rest Hi eq_refl Hrem')
    as (p' & R & Hbuf & Hpos & Hn).
  exists p'. split; [exact R |].
  assert (Hbytes : Z.of_nat (List.length
                               (Format.rootWindow pin pout
                                ++ Format.len8 (List.length conns)
                                :: flat_map Format.connection conns))
                   = 6 + 2 * Z.of_nat (List.length conns)).
  { rewrite length_app, rootWindow_length. cbn [List.length].
    rewrite length_connections. lia. }
  split; [rewrite Hpos, Hbytes; lia |].
  split; [apply (remaining_after p p' _ rest Hi Hrem' Hbuf Hpos) |].
  rewrite Hn, fold_appendConnection. cbn. auto 10.
Qed.

Lemma X8_two_connections :
  exists p' : parser,
    parseRoots
      (mkParser (Format.roots sampleDocument ++ [xff]) 0 EmptyString zeroNode)
    = (p', inr tt)
    /\ p_i p' = 0 + 6 + 2 * Z.of_nat 2
    /\ remaining p' = [xff]
    /\ InputRootPosition (p_n p') = mkPosition (-500) 0
    /\ oPosition (OutputRoot (p_n p')) = mkPosition 523 (-1)
    /\ Connections (OutputRoot (p_n p')) = [] ++ [(x00, x00); (x00, x01)]
    /\ Version (p_n p') = x00
    /\ Nodes (p_n p') = [] /\ Types (p_n p') = []
    /\ Instances (p_n p') = [].
Proof.
  exact (X8_parseRoots_connections
           (mkParser (Format.roots sampleDocument ++ [xff]) 0 EmptyString
                     zeroNode)
           (mkPosition (-500) 0) (mkPosition 523 (-1))
           [(x00, x00); (x00, x01)] [xff]
           ltac:(cbn; lia)
           ltac:(unfold wfPosition, wfCoordinate; cbn; lia)
           ltac:(unfold wfPosition, wfCoordinate; cbn; lia)
           ltac:(cbn; lia) eq_refl).
Defined.

(** X9: the table parser on two tables.  The entries of the first are
    appended to the node paths and those of the second to the type names,
    each in the order of the buffer; exactly the bytes of the two tables are
    consumed and the rest of the node is untouched. *)
Theorem X9_parseNodesAndTypes_tables (p : parser) (nodes types : list string)
        (rest : list byte) :
  0 <= p_i p -> wfTable nodes -> wfTable types ->
  remaining p = Format.table nodes ++ Format.table types ++ rest ->
  exists p' : parser,
    parseNodesAndTypes p = (p', inr tt)
    /\ p_i p' = p_i p + Z.of_nat (List.length (Format.table nodes))
                + Z.of_nat (List.length (Format.table types))
    /\ remaining p' = rest
    /\ Nodes (p_n p') = Nodes (p_n p) ++ nodes
    /\ Types (p_n p') = Types (p_n p) ++ types
    /\ Version (p_n p') = Version (p_n p)
    /\ InputRootPosition (p_n p') = InputRootPosition (p_n p)
    /\ OutputRoot (p_n p') = OutputRoot (p_n p)
    /\ Instances (p_n p') = Instances (p_n p).
Proof.
  intros Hi Hnodes Htypes Hrem. rewrite app_assoc in Hrem.
  destruct (parseNodesAndTypes_layout (p_n p) nodes types Hnodes Htypes
                                      p rest Hi eq_refl Hrem)
    as (p' & R & Hbuf & Hpos & Hn).
  exists p'. split; [exact R |].
  split; [rewrite Hpos, length_app; lia |].
  split; [apply (remaining_after p p' _ rest Hi Hrem Hbuf Hpos) |].
  rewrite Hn, fold_appendType, fold_appendNode. cbn. auto 10.
Qed.

Lemma X9_sample_tables :
  exists p' : parser,
    parseNodesAndTypes
      (mkParser (Format.table ["std/math"%string; "util"%string]
                 ++ Format.table ["colour"%string] ++ [])
                0 EmptyString zeroNode)
    = (p', inr tt)
    /\ p_i p' = 0 + Z.of_nat 15 + Z.of_nat 8
    /\ remaining p' = []
    /\ Nodes (p_n p') = [] ++ ["std/math"%string; "util"%string]
    /\ Types (p_n p') = [] ++ ["colour"%string]
    /\ Version (p_n p') = x00
    /\ InputRootPosition (p_n p') = zeroPosition
    /\ OutputRoot (p_n p') = mkOutputRoot zeroPosition []
    /\ Instances (p_n p') = [].
Proof.
  exact (X9_parseNodesAndTypes_tables
           (mkParser (Format.table ["std/math"%string; "util"%string]
                      ++ Format.table ["colour"%string] ++ [])
                     0 EmptyString zeroNode)
           ["std/math"%string; "util"%string] ["colour"%string] []
           ltac:(cbn; lia)
           ltac:(split; [cbn; lia | repeat constructor; cbn; lia])
           ltac:(split; [cbn; lia | repeat constructor; cbn; lia])
           eq_refl).
Defined.

(** X10: the inline value of a socket.  For a kind other than outgoing
    named and incoming switch, with the connected bit clear, the four bytes
    after the port slot are a big-endian length and that many bytes follow
    as the value: the socket gets them as its [Value], has no connection
    reference, and 7 + length bytes are consumed. *)
Theorem X10_inline_value (p : parser) (i : Instance)
        (f vt ps l0 l1 l2 l3 : byte) (value rest : list byte) :
  0 <= p_i p ->
  Unpack.socketType f <> OutgoingNamed ->
  Unpack.socketType f <> IncomingSwitch ->
  Z.testbit (u8 f) 1 = false ->
  Z.of_nat (List.length value)
  = u8 l0 * 2 ^ 24 + u8 l1 * 2 ^ 16 + u8 l2 * 2 ^ 8 + u8 l3 ->
  remaining p = f :: vt :: ps :: l0 :: l1 :: l2 :: l3 :: value ++ rest ->
  let p' := set_i p (p_i p + 7 + Z.of_nat (List.length value)) in
  exists s : Socket,
    parseSocket i p = (p', inr (appendSocket s i))
    /\ remaining p' = rest
    /\ Value s = string_of_list_byte value
    /\ sType s = Unpack.socketType f /\ sValueType s = vt /\ PortSlot s = ps
    /\ Connected s = false
    /\ ConnectedNode s = x00 /\ ConnectedSocket s = x00.
Proof.
  intros Hi Ho Hs Hbit Hlen Hrem p'.
  destruct (parseSocket_head p i f vt ps _ Hi Hrem) as [Hrun Hrem3].
  destruct (flags_layout f) as (_ & Hc & _ & _). rewrite Hbit in Hc.
  set (p3 := set_i p (p_i p + 3)) in *.
  assert (Hi3 : 0 <= p_i p3) by (cbn; lia).
  destruct (read_ok p3 [l0; l1; l2; l3] (value ++ rest) Hi3 Hrem3)
    as [R4 Hrem7].
  cbn [List.length Z.of_nat Pos.of_succ_nat Pos.succ] in R4, Hrem7.
  set (p7 := set_i p3 (p_i p3 + 4)) in *.
  assert (Hi7 : 0 <= p_i p7) by (cbn; lia).
  destruct (read_ok p7 value rest Hi7 Hrem7) as [Rv Hremv].
  assert (Hp' : set_i p7 (p_i p7 + Z.of_nat (List.length value)) = p').
  { unfold p', p7, p3, set_i. cbn [p_i p_buf p_ctx p_n]. f_equal. lia. }
  rewrite Hp' in Rv, Hremv.
  assert (Hu : Uint32 [l0; l1; l2; l3] = Z.of_nat (List.length value))
    by (rewrite Uint32_sum; cbn [nth]; lia).
  exists (withValue (string_of_list_byte value) (socketHead f vt ps)).
  split.
  - rewrite Hrun. unfold bind at 1, socketTail.
    cbn [sType Connected socketHead].
    destruct (Byte.eqb (Unpack.socketType f) OutgoingNamed) eqn:Eo;
      [apply Byte.byte_dec_bl in Eo; contradiction |].
    destruct (Byte.eqb (Unpack.socketType f) IncomingSwitch) eqn:Es;
      [apply Byte.byte_dec_bl in Es; contradiction |].
    rewrite Hc. cbn [negb]. unfold readUint32.
    rewrite (bind_ok _ _ _ _ _ (bind_ok _ _ _ _ _ R4)).
    unfold ret at 1. rewrite Hu.
    rewrite (bind_ok _ _ _ _ _ Rv). reflexivity.
  - cbn. rewrite Hc. auto 10.
Qed.

(** A text socket holding "hi". *)
Lemma X10_text_hi :
  let p := mkParser [x28; xf5; x03; x00; x00; x00; x02; "h"%byte; "i"%byte;
                     xaa] 0 EmptyString zeroNode in
  exists s : Socket,
    parseSocket zeroInstance p = (set_i p 9, inr (appendSocket s zeroInstance))
    /\ remaining (set_i p 9) = [xaa]
    /\ Value s = "hi"%string
    /\ sType s = IncomingText /\ sValueType s = xf5 /\ PortSlot s = x03
    /\ Connected s = false
    /\ ConnectedNode s = x00 /\ ConnectedSocket s = x00.
Proof.
  exact (X10_inline_value
           (mkParser [x28; xf5; x03; x00; x00; x00; x02; "h"%byte; "i"%byte;
                      xaa] 0 EmptyString zeroNode)
           zeroInstance x28 xf5 x03 x00 x00 x00 x02 ["h"%byte; "i"%byte]
           [xaa]
           ltac:(cbn; lia) ltac:(discriminate) ltac:(discriminate)
           eq_refl eq_refl eq_refl).
Defined.

(** X11: an inline value longer than what is left.  When the declared
    length exceeds the bytes that follow it, the socket parser fails with
    the short read error at the offset of the value, 7 bytes after the
    flags byte, and in the context it was called in. *)
Theorem X11_inline_value_too_long (p : parser) (i : Instance)
        (f vt ps l0 l1 l2 l3 : byte) (tail : list byte) :
  0 <= p_i p ->
  Unpack.socketType f <> OutgoingNamed ->
  Unpack.socketType f <> IncomingSwitch ->
  Z.testbit (u8 f) 1 = false ->
  Z.of_nat (List.length tail)
  < u8 l0 * 2 ^ 24 + u8 l1 * 2 ^ 16 + u8 l2 * 2 ^ 8 + u8 l3 ->
  remaining p = f :: vt :: ps :: l0 :: l1 :: l2 :: l3 :: tail ->
  parseSocket i p
  = (set_i p (p_i p + 7),
     inl (mkParseError (p_ctx p) "internal read error (buffer too small)"
                       (p_i p + 7))).
Proof.
  intros Hi Ho Hs Hbit Hlen Hrem.
  destruct (parseSocket_head p i f vt ps _ Hi Hrem) as [Hrun Hrem3].
  destruct (flags_layout f) as (_ & Hc & _ & _). rewrite Hbit in Hc.
  set (p3 := set_i p (p_i p + 3)) in *.
  assert (Hi3 : 0 <= p_i p3) by (cbn; lia).
  destruct (read_ok p3 [l0; l1; l2; l3] tail Hi3 Hrem3) as [R4 Hrem7].
  cbn [List.length Z.of_nat Pos.of_succ_nat Pos.succ] in R4, Hrem7.
  set (p7 := set_i p3 (p_i p3 + 4)) in *.
  assert (Hp7 : p7 = set_i p (p_i p + 7)).
  { unfold p7, p3, set_i. cbn [p_i p_buf p_ctx p_n]. f_equal. lia. }
  assert (Hu : Uint32 [l0; l1; l2; l3]
               = u8 l0 * 2 ^ 24 + u8 l1 * 2 ^ 16 + u8 l2 * 2 ^ 8 + u8 l3)
    by (rewrite Uint32_sum; reflexivity).
  pose proof (read_short p7 (Uint32 [l0; l1; l2; l3])
                ltac:(rewrite Hrem7, Hu; exact Hlen)) as Rv.
  rewrite Hrun. unfold bind at 1, socketTail.
  cbn [sType Connected socketHead].
  destruct (Byte.eqb (Unpack.socketType f) OutgoingNamed) eqn:Eo;
    [apply Byte.byte_dec_bl in Eo; contradiction |].
  destruct (Byte.eqb (Unpack.socketType f) IncomingSwitch) eqn:Es;
    [apply Byte.byte_dec_bl in Es; contradiction |].
  rewrite Hc. cbn [negb]. unfold readUint32.
  rewrite (bind_ok _ _ _ _ _ (bind_ok _ _ _ _ _ R4)).
  unfold ret at 1.
  rewrite (bind_err _ _ _ _ _ Rv). rewrite Hp7. reflexivity.
Qed.

(** A declared length of 2^32 - 1 with one byte left. *)
Lemma X11_huge_length :
  let p := mkParser [x28; xf5; x03; xff; xff; xff; xff; "h"%byte] 0
                    "parsing socket [0] in instance [0]" zeroNode in
  parseSocket zeroInstance p
  = (set_i p 7,
     inl (mkParseError "parsing socket [0] in instance [0]"
                       "internal read error (buffer too small)" 7)).
Proof.
  exact (X11_inline_value_too_long
           (mkParser [x28; xf5; x03; xff; xff; xff; xff; "h"%byte] 0
                     "parsing socket [0] in instance [0]" zeroNode)
           zeroInstance x28 xf5 x03 xff xff xff xff ["h"%byte]
           ltac:(cbn; lia) ltac:(discriminate) ltac:(discriminate)
           eq_refl ltac:(cbn; lia) eq_refl).
Defined.

(** X12: the instance parser on a count and that many instances.  The
    instances are appended to the document in the order of the buffer, each
    with its key, type, name, position and sockets in order; exactly their
    bytes are consumed and the rest of the node is untouched. *)
Theorem X12_parseInstances_order (p : parser) (insts : list Instance)
        (rest : list byte) :
  0 <= p_i p -> (List.length insts <= 255)%nat -> Forall wfInstance insts ->
  remaining p = Format.instances insts ++ rest ->
  exists p' : parser,
    parseInstances p = (p', inr tt)
    /\ p_i p' = p_i p + Z.of_nat (List.length (Format.instances insts))
    /\ remaining p' = rest
    /\ Instances (p_n p') = Instances (p_n p) ++ insts
    /\ Version (p_n p') = Version (p_n p)
    /\ InputRootPosition (p_n p') = InputRootPosition (p_n p)
    /\ OutputRoot (p_n p') = OutputRoot (p_n p)
    /\ Nodes (p_n p') = Nodes (p_n p) /\ Types (p_n p') = Types (p_n p).
Proof.
  intros Hi Hlen Hwf Hrem.
  destruct (parseInstances_layout (p_n p) insts Hlen Hwf p rest Hi eq_refl
                                  Hrem)
    as (p' & R & Hbuf & Hpos & Hn).
  exists p'. split; [exact R |].
  split; [exact Hpos |].
  split; [apply (remaining_after p p' _ rest Hi Hrem Hbuf Hpos) |].
  rewrite Hn, fold_appendInstance. cbn. auto 10.
Qed.

Lemma X12_sample_instances :
  exists p' : parser,
    parseInstances
      (mkParser (Format.instances (Instances sampleDocument) ++ [])
                0 EmptyString zeroNode)
    = (p', inr tt)
    /\ p_i p'
       = 0 + Z.of_nat (List.length
                         (Format.instances (Instances sampleDocument)))
    /\ remaining p' = []
    /\ Instances (p_n p') = [] ++ Instances sampleDocument
    /\ Version (p_n p') = x00
    /\ InputRootPosition (p_n p') = zeroPosition
    /\ OutputRoot (p_n p') = mkOutputRoot zeroPosition []
    /\ Nodes (p_n p') = [] /\ Types (p_n p') = [].
Proof.
  exact (X12_parseInstances_order
           (mkParser (Format.instances (Instances sampleDocument) ++ [])
                     0 EmptyString zeroNode)
           (Instances sampleDocument) []
           ltac:(cbn; lia) ltac:(cbn; lia)
           (proj2 (proj2 (proj2 (proj2 (proj2 (proj2 (proj2
              sampleDocument_wf)))))))
           eq_refl).
Defined.

Section ConnectionsCut.

(** The loop of [parseRoots] on complete pairs followed by less than a
    pair, with rounds still to run. *)
Lemma connections_cut (conns : list (byte * byte)) (more : nat)
      (tail : list byte) :
  (List.length tail < 2)%nat ->
  forall (idx : Z) (p : parser),
    0 <= p_i p ->
    remaining p = flat_map Format.connection conns ++ tail ->
    exists p' : parser,
      forRange (List.length conns + S more) idx connectionRound tt p
      = (p', inl (mkParseError
                    ("reading outgoing connection ["
                     ++ Fmt.d (idx + Z.of_nat (List.length conns)) ++ "]")
                    "internal read error (buffer too small)"
                    (p_i p + 2 * Z.of_nat (List.length conns)))).
Proof.
  intros Htail.
  induction conns as [| [a b] conns IH]; intros idx p Hi Hrem.
  - cbn [List.length Nat.add forRange]. cbn [flat_map app] in Hrem.
    set (q := set_ctx p ("reading outgoing connection [" ++ Fmt.d idx
                         ++ "]")).
    exists q. apply bind_err. unfold connectionRound.
    rewrite (bind_ok _ _ _ q tt eq_refl). apply bind_err.
    replace (idx + Z.of_nat 0) with idx by lia.
    replace (p_i p + 2 * Z.of_nat 0) with (p_i q) by (cbn; lia).
    apply (read_short q 2). unfold q, remaining in *. cbn [p_i p_buf set_ctx].
    rewrite Hrem. lia.
  - cbn [List.length Nat.add forRange].
    cbn [flat_map Format.connection fst snd app] in Hrem.
    set (q := set_ctx p ("reading outgoing connection [" ++ Fmt.d idx
                         ++ "]")).
    destruct (read_ok q [a; b] (flat_map Format.connection conns ++ tail)
                      Hi Hrem) as [R Hrem2].
    cbn [List.length Z.of_nat Pos.of_succ_nat Pos.succ] in R, Hrem2.
    set (q2 := set_n (set_i q (p_i q + 2))
                     (appendConnection (a, b) (p_n q))).
    destruct (IH (idx + 1) q2 ltac:(cbn; lia) Hrem2) as (p' & Rloop).
    exists p'.
    assert (Rbody : connectionRound idx tt p = (q2, inr tt)).
    { unfold connectionRound.
      rewrite (bind_ok _ _ _ q tt eq_refl), (bind_ok _ _ _ _ _ R).
      reflexivity. }
    rewrite (bind_ok _ _ _ _ _ Rbody), Rloop.
    cbn [p_i q2 q set_n set_i set_ctx].
    replace (idx + Z.of_nat (S (List.length conns)))
      with (idx + 1 + Z.of_nat (List.length conns)) by lia.
    replace (p_i p + 2 * Z.of_nat (S (List.length conns)))
      with (p_i p + 2 + 2 * Z.of_nat (List.length conns)) by lia.
    reflexivity.
Qed.

End ConnectionsCut.

(** X13: a connection list cut short.  When the count promises more pairs
    than the buffer holds, the root parser fails with the short read error;
    the context names the index of the first pair that is missing or
    incomplete and the offset is where that pair would start. *)
Theorem X13_connection_list_cut (p : parser) (w : list byte) (count : byte)
        (conns : list (byte * byte)) (tail : list byte) :
  0 <= p_i p -> List.length w = 5%nat ->
  (List.length conns < Z.to_nat (u8 count))%nat ->
  (List.length tail < 2)%nat ->
  remaining p = w ++ count :: flat_map Format.connection conns ++ tail ->
  exists p' : parser,
    parseRoots p
    = (p', inl (mkParseError
                  ("reading outgoing connection ["
                   ++ Fmt.d (Z.of_nat (List.length conns)) ++ "]")
                  "internal read error (buffer too small)"
                  (p_i p + 6 + 2 * Z.of_nat (List.length conns)))).
Proof.
  intros Hi Hw Hcount Htail Hrem.
  set (q0 := set_ctx p "unpacking root positions").
  destruct (read_ok q0 w _ Hi Hrem) as [R Hrem5]. rewrite Hw in R, Hrem5.
  cbn [Z.of_nat Pos.of_succ_nat Pos.succ] in R, Hrem5.
  set (q1 := set_ctx
               (set_n (set_i q0 (p_i q0 + 5))
                      (withRootPositions
                         (mkPosition (Unpack.field0 w) (Unpack.field1 w))
                         (mkPosition (Unpack.field2 w) (Unpack.field3 w))
                         (p_n q0)))
               "reading amount of connections").
  destruct (readByte_ok q1 count _ ltac:(cbn; lia) Hrem5) as [R1 Hrem6].
  set (q2 := set_i q1 (p_i q1 + 1)) in *.
  destruct (connections_cut conns
              (Z.to_nat (u8 count) - List.length conns - 1) tail Htail
              0 q2 ltac:(cbn; lia) Hrem6) as (p' & Rloop).
  replace (List.length conns
           + S (Z.to_nat (u8 count) - List.length conns - 1))%nat
    with (Z.to_nat (u8 count)) in Rloop by lia.
  exists p'. unfold parseRoots.
  rewrite (bind_ok _ _ _ q0 tt eq_refl).
  rewrite (bind_ok _ _ _ _ _ R).
  rewrite (bind_ok _ _ _ _ tt eq_refl).
  rewrite (bind_ok _ _ _ q1 tt eq_refl).
  rewrite (bind_ok _ _ _ _ _ R1).
  change (forRange (Z.to_nat (u8 count)) 0 connectionRound tt q2
          = (p', inl (mkParseError
                        ("reading outgoing connection ["
                         ++ Fmt.d (Z.of_nat (List.length conns)) ++ "]")
                        "internal read error (buffer too small)"
                        (p_i p + 6 + 2 * Z.of_nat (List.length conns))))).
  rewrite Rloop. cbn [p_i q2 q1 q0 set_i set_n set_ctx Z.add].
  replace (p_i p + 5 + 1 + 2 * Z.of_nat (List.length conns))
    with (p_i p + 6 + 2 * Z.of_nat (List.length conns)) by lia.
  reflexivity.
Qed.

(** Three connections promised, one and a half present. *)
Lemma X13_one_and_a_half :
  exists p' : parser,
    parseRoots
      (mkParser [x00; x00; x00; x00; x00; x03; x01; x02; x03] 0 EmptyString
                zeroNode)
    = (p', inl (mkParseError "reading outgoing connection [1]"
                             "internal read error (buffer too small)" 8)).
Proof.
  exact (X13_connection_list_cut
           (mkParser [x00; x00; x00; x00; x00; x03; x01; x02; x03] 0
                     EmptyString zeroNode)
           [x00; x00; x00; x00; x00] x03 [(x01, x02)] [x03]
           ltac:(cbn; lia) eq_refl ltac:(cbn; lia) ltac:(cbn; lia) eq_refl).
Defined.

(** ** The built-in name tables *)

Section BuiltinTables.

Lemma builtin_names_distinct :
  NoDup (skipn 237 Builtin.BuiltinNodeTypeNames)
  /\ NoDup (skipn 231 Builtin.BuiltinValueTypeNames).
Proof.
  split; vm_compute;
    repeat (constructor; [cbn; intuition discriminate |]); constructor.
Qed.

End BuiltinTables.

(** X14: the two tables of built-in names.  Each has 256 entries, so every
    byte is a valid index; the entry of a byte is a name exactly when the
    byte lies above the start marker of its enumeration (236 for node
    types, 230 for value types) and is empty below; and no two members share
    a name. *)
Theorem X14_builtin_tables :
  List.length Builtin.BuiltinNodeTypeNames = 256%nat
  /\ List.length Builtin.BuiltinValueTypeNames = 256%nat
  /\ (forall b : byte,
         Builtin.at_ Builtin.BuiltinNodeTypeNames b <> EmptyString
         <-> Builtin.builtinNodeStart < u8 b)
  /\ (forall b : byte,
         Builtin.at_ Builtin.BuiltinValueTypeNames b <> EmptyString
         <-> Builtin.builtinTypeStart < u8 b)
  /\ NoDup (skipn 237 Builtin.BuiltinNodeTypeNames)
  /\ NoDup (skipn 231 Builtin.BuiltinValueTypeNames).
Proof.
  split; [reflexivity |]. split; [reflexivity |].
  split; [| split; [| exact builtin_names_distinct]].
  - intros b. destruct b; vm_compute; split; intros H;
      first [ reflexivity | discriminate | exfalso; apply H; reflexivity
            | intros E; discriminate E ].
  - intros b. destruct b; vm_compute; split; intros H;
      first [ reflexivity | discriminate | exfalso; apply H; reflexivity
            | intros E; discriminate E ].
Qed.

(** ** Decoding from a reader *)


(** ** The padding bits of the flags byte *)

Section Padding.

Lemma forward_ret {A} (a : A) : forward (ret a).
Proof. intros p q H. cbn. auto. Qed.

Lemma forward_bind {A B} (m : M A) (k : A -> M B) :
  forward m -> (forall a, forward (k a)) -> forward (bind m k).
Proof.
  intros Hm Hk p q H. destruct (Hm p q H) as [Hr Hst]. unfold bind.
  destruct (m p) as [p1 [e | a]], (m q) as [q1 [e' | a']];
    cbn [fst snd] in *; try discriminate.
  - inversion Hr; subst. auto.
  - inversion Hr; subst. apply Hk. exact Hst.
Qed.

Lemma forward_if {A} (c : bool) (m1 m2 : M A) :
  forward m1 -> forward m2 -> forward (if c then m1 else m2).
Proof. destruct c; auto. Qed.

Lemma forward_read (size : Z) : 0 <= size -> forward (read size).
Proof.
  intros Hsize p q (Hrem & Hi & Hctx & Hn & Hp).
  unfold read, error. rewrite <- Hrem, <- Hi, <- Hctx.
  destruct (Z.of_nat (List.length (remaining p)) <? size);
    cbn [fst snd].
  - split; [reflexivity |]. unfold alike. auto.
  - split; [reflexivity |]. unfold alike.
    rewrite remaining_set_i by assumption.
    replace (set_i q (p_i p + size)) with (set_i q (p_i q + size))
      by (rewrite Hi; reflexivity).
    rewrite (remaining_set_i q) by lia.
    cbn [p_i p_ctx p_n set_i]. rewrite Hrem.
    repeat split; auto; lia.
Qed.

Lemma forward_readByte : forward readByte.
Proof.
  unfold readByte.
  apply forward_bind; [apply forward_read; lia | intros; apply forward_ret].
Qed.

Lemma forward_socketTail (sv : bool) (s : Socket) :
  forward (socketTail sv s).
Proof.
  unfold socketTail.
  repeat first
    [ apply forward_if | apply forward_ret
    | apply forward_bind; [apply forward_readByte | intros ?] ].
  unfold readUint32. intros p q H.
  assert (Hf : forward (bind (read 4)
                          (fun bs => bind (read (Uint32 bs))
                             (fun value =>
                                ret (withValue (string_of_list_byte value)
                                               s))))).
  { apply forward_bind; [apply forward_read; lia | intros bs].
    apply forward_bind; [apply forward_read, Uint32_nonneg | intros v].
    apply forward_ret. }
  specialize (Hf p q H). unfold bind, ret in *.
  destruct (read 4 p) as [p1 [e | bs]], (read 4 q) as [q1 [e' | bs']];
    exact Hf.
Qed.

(** The four values read from the flags byte depend on its six low bits
    only. *)
Lemma flags_low_bits (f : byte) :
  let g := byte_of_Z (u8 f mod 64) in
  Unpack.socketType f = Unpack.socketType g
  /\ Unpack.connected f = Unpack.connected g
  /\ Unpack.repetitive f = Unpack.repetitive g
  /\ Unpack.switchValue f = Unpack.switchValue g.
Proof. destruct f; vm_compute; repeat split. Qed.

End Padding.

(** X16: the two padding bits of the flags byte are ignored.  Two buffers
    that differ only in the two high bits of the flags byte of a socket give
    that socket parser the same result, socket or error, and the same
    cursor. *)
Theorem X16_padding_ignored (pre tl : list byte) (f f' : byte) (c : string)
        (n : Node) (i : Instance) :
  u8 f mod 64 = u8 f' mod 64 ->
  let p := mkParser (pre ++ f :: tl) (Z.of_nat (List.length pre)) c n in
  let q := mkParser (pre ++ f' :: tl) (Z.of_nat (List.length pre)) c n in
  snd (parseSocket i p) = snd (parseSocket i q)
  /\ p_i (fst (parseSocket i p)) = p_i (fst (parseSocket i q)).
Proof.
  intros Hlow p q.
  assert (Hp : remaining p = f :: tl).
  { unfold remaining, p. cbn [p_i p_buf]. rewrite Nat2Z.id, skipn_app.
    rewrite skipn_all, Nat.sub_diag. reflexivity. }
  assert (Hq : remaining q = f' :: tl).
  { unfold remaining, q. cbn [p_i p_buf]. rewrite Nat2Z.id, skipn_app.
    rewrite skipn_all, Nat.sub_diag. reflexivity. }
  assert (Hi : 0 <= p_i p) by (cbn; lia).
  assert (Hiq : 0 <= p_i q) by (cbn; lia).
  destruct (readByte_ok p f tl Hi Hp) as [Rp Hp1].
  destruct (readByte_ok q f' tl Hiq Hq) as [Rq Hq1].
  destruct (flags_low_bits f) as (Ht & Hc & Hr & Hs).
  destruct (flags_low_bits f') as (Ht' & Hc' & Hr' & Hs').
  cbv zeta in *. rewrite <- Hlow in Ht', Hc', Hr', Hs'.
  unfold parseSocket.
  rewrite (bind_ok _ _ _ _ _ Rp), (bind_ok _ _ _ _ _ Rq). cbv zeta.
  rewrite Ht, Hc, Hr, Hs, Ht', Hc', Hr', Hs'.
  match goal with
  | |- snd (?k ?a) = snd (?k ?b) /\ _ =>
      assert (Hf : forward k);
      [| destruct (Hf a b) as [E (_ & E' & _)];
         [unfold alike; rewrite Hp1, Hq1; cbn; repeat split; lia
         | split; [exact E | exact E']]]
  end.
  apply forward_bind; [apply forward_readByte | intros vt].
  apply forward_bind; [apply forward_readByte | intros ps].
  apply forward_bind; [apply forward_socketTail | intros s].
  apply forward_ret.
Qed.

(** A connected select socket with and without the padding bits set. *)
Lemma X16_padding_set :
  let p := mkParser [x00; x1a; x07; x09; x03; x01] 1 EmptyString zeroNode in
  let q := mkParser [x00; xda; x07; x09; x03; x01] 1 EmptyString zeroNode in
  snd (parseSocket zeroInstance p) = snd (parseSocket zeroInstance q)
  /\ p_i (fst (parseSocket zeroInstance p))
     = p_i (fst (parseSocket zeroInstance q)).
Proof.
  exact (X16_padding_ignored [x00] [x07; x09; x03; x01] x1a xda EmptyString
                             zeroNode zeroInstance eq_refl).
Defined.
